(** * python-genetic: the allele index ([gene_pool]) and the evolution engine ([Evolve])

    A shallow embedding of [src/genetic/gene_pool.py] and
    [src/genetic/evolve.py], followed by the properties of the two
    classes.

    Conventions of the embedding.
    - A Python statement sequence is a computation in a state-and-exception
      monad: it takes the state, returns the state it leaves behind and an
      outcome.  Whatever has been assigned before an exception is raised
      stays assigned.
    - [while True] loops carry a fuel bound on their iterations;
      [OutOfFuel] stands for a loop that has not left yet.
    - The pseudo-random source is a tape of draws; every call consumes one
      draw per number it returns, and a run on an exhausted tape has not
      finished ([OutOfFuel]).
    - Positions and fitness values are Python floats, held as rationals:
      every finite float is one, and the code only compares them.
    - [np.array] converts the elements of a list to one dtype.  Floats are
      held as they are; what happens to the alleles depends on what they
      are, and is a parameter of the embedding ([Dtype]), given for the
      Python integers of the examples.
    - Instances of [gene_pool] live in a heap and are handled through their
      addresses, so that two names for one object and two objects with the
      same content are different things. *)

From Stdlib Require Import ZArith QArith Lia Lqa.
From stdpp Require Import base option list gmap strings sorting.

Local Open Scope Z_scope.
Local Open Scope nat_scope.

(** ** Outcomes and the monad *)

Inductive exn :=
  TypeError | ValueError | IndexError | AttributeError | KeyError | ZeroDivisionError.

Inductive outcome (X : Type) : Type :=
| Ok (x : X)
| Raise (e : exn)
| OutOfFuel.
Arguments Ok {X} x.
Arguments Raise {X} e.
Arguments OutOfFuel {X}.

Definition M (S X : Type) : Type := S -> S * outcome X.

Definition ret {S X} (x : X) : M S X := fun s => (s, Ok x).

Definition raise {S X} (e : exn) : M S X := fun s => (s, Raise e).

Definition bind {S X Y} (m : M S X) (k : X -> M S Y) : M S Y :=
  fun s =>
    match m s with
    | (s', Ok x) => k x s'
    | (s', Raise e) => (s', Raise e)
    | (s', OutOfFuel) => (s', OutOfFuel)
    end.

Definition gets {S X} (f : S -> X) : M S X := fun s => (s, Ok (f s)).

Definition modify {S} (f : S -> S) : M S unit := fun s => (f s, Ok tt).

Definition from_outcome {S X} (o : outcome X) : M S X := fun s => (s, o).

Notation "'let*' p ':=' m 'in' k" := (bind m (fun p => k))
  (at level 10, p as pattern, m at level 100, k at level 200).

(** [for x in l: body] *)
Fixpoint for_each {S Y} (l : list Y) (body : Y -> M S unit) : M S unit :=
  match l with
  | [] => ret tt
  | y :: l' => let* _ := body y in for_each l' body
  end.

(** [for x in l: body], with the local variables the body updates threaded
    through as an accumulator. *)
Fixpoint fold_each {S Acc Y} (l : list Y) (body : Acc -> Y -> M S Acc) (a : Acc) : M S Acc :=
  match l with
  | [] => ret a
  | y :: l' => let* a' := body a y in fold_each l' body a'
  end.

(** [[f(x) for x in l]] *)
Fixpoint comprehension {S X Y} (l : list X) (f : X -> M S Y) : M S (list Y) :=
  match l with
  | [] => ret []
  | x :: l' => let* y := f x in let* ys := comprehension l' f in ret (y :: ys)
  end.

(** [while True: body]: the body either goes round again with the updated
    locals ([inl]) or leaves the loop with a value ([inr]). *)
Fixpoint while_true {S Acc X} (fuel : nat) (body : Acc -> M S (Acc + X)) (a : Acc) : M S X :=
  match fuel with
  | O => from_outcome OutOfFuel
  | Datatypes.S fuel' =>
      let* r := body a in
      match r with
      | inl a' => while_true fuel' body a'
      | inr x => ret x
      end
  end.

(** [m] keeps [P]: whatever its outcome, the state it leaves satisfies [P]
    when the state it started from did. *)
Definition preserves {S X} (P : S -> Prop) (m : M S X) : Prop :=
  forall s, P s -> P (m s).1.

(** Partial correctness of the runs that return. *)
Definition hoare {S X} (P : S -> Prop) (m : M S X) (Q : X -> S -> Prop) : Prop :=
  forall s s' x, P s -> m s = (s', Ok x) -> Q x s'.

(** [range(n)] and [xrange(n)] for a Python integer [n]: empty when [n <= 0]. *)
Definition range (n : Z) : list Z := Z.of_nat <$> seq 0 (Z.to_nat n).

(** [l[:n]] for a Python integer [n]: a negative bound counts from the end. *)
Definition slice_to {X} (l : list X) (n : Z) : list X :=
  if (0 <=? n)%Z then take (Z.to_nat n) l
  else take (length l - Z.to_nat (- n)) l.

(** ** The pseudo-random source

    One draw of the tape is turned into the value a call returns. *)

(** A uniform float in [0, 1): a multiple of 2^-53. *)
Definition float_of_draw (r : nat) : Q := (Z.of_nat r mod 2 ^ 53)%Z # (2 ^ 53).

(** An index below [n] (for [n > 0]). *)
Definition index_of_draw (r n : nat) : nat := r mod n.

Definition next_draw {S} (get : S -> list nat) (set : list nat -> S -> S) : M S nat :=
  fun s =>
    match get s with
    | [] => (s, OutOfFuel)
    | r :: tape => (set tape s, Ok r)
    end.

(** ** The allele index: class [gene_pool] *)

Module GenePool.

(** The two kinds of sequence the class stores in its attributes: the Python
    list it starts with and appends to, and the numpy array that [np.array]
    and boolean-mask indexing produce. *)
Inductive container := PyList | NdArray.

Record pyseq (X : Type) : Type := Seq { kind : container; items : list X }.
Arguments Seq {X} kind items.
Arguments kind {X} p.
Arguments items {X} p.

(** [np.array] gives the elements of a Python list one common dtype, which it
    finds from the whole list, and holds every element converted to it: a
    list of integers within 64 bits is held as it is, one with an integer
    beyond them can become an array of floats, a list of integers and
    strings an array of strings.  [astype l x] is the element [x] as the
    array made of the list [l] holds it.  The conversion depends on what the
    elements are, and is a parameter of the embedding. *)
Class Dtype (X : Type) := astype : list X -> X -> X.

(** A position is a Python float, the one [np.random.random()] returns or
    the one the caller gives; [Q] holds its value, and an array of floats
    holds every float as it is. *)
#[global] Instance float64 : Dtype Q := fun _ p => p.

(** [np.array(s)]: a new array.  The elements of a list are converted to
    their common dtype; those of an array have one already. *)
Definition np_array {X} `{!Dtype X} (s : pyseq X) : pyseq X :=
  match kind s with
  | PyList => Seq NdArray (astype (items s) <$> items s)
  | NdArray => Seq NdArray (items s)
  end.

(** [np.array] holds the elements of [s] as they are. *)
Definition np_exact {X} `{!Dtype X} (s : pyseq X) : Prop :=
  items (np_array s) = items s.

(** [s.append(x)]: lists have it, arrays do not. *)
Definition append {X} (s : pyseq X) (x : X) : outcome (pyseq X) :=
  match kind s with
  | PyList => Ok (Seq PyList (items s ++ [x]))
  | NdArray => Raise AttributeError
  end.

(** The items of [l] at the positions where [mask] is true. *)
Fixpoint compress {X} (mask : list bool) (l : list X) : list X :=
  match mask, l with
  | b :: mask', x :: l' => if b then x :: compress mask' l' else compress mask' l'
  | _, _ => []
  end.

(** [s[mask]] for a boolean numpy array [mask].  An array is filtered by a
    mask of its own length.  A list accepts integers and slices only: the
    mask is not an integer scalar, and the subscription is a [TypeError]. *)
Definition getitem_mask {X} (s : pyseq X) (mask : pyseq bool) : outcome (pyseq X) :=
  match kind s with
  | PyList => Raise TypeError
  | NdArray =>
      if decide (length (items mask) = length (items s))
      then Ok (Seq NdArray (compress (items mask) (items s)))
      else Raise IndexError
  end.

(** [np.logical_and(positions >= start, positions <= stop)] *)
Definition in_range (start stop : Q) (positions : list Q) : list bool :=
  (fun p => Qle_bool start p && Qle_bool p stop) <$> positions.

(** [np.logical_not(mask)] *)
Definition logical_not (mask : pyseq bool) : pyseq bool :=
  Seq NdArray (negb <$> items mask).

Section gene_pool.
Context {A : Type} `{!Dtype A}.

(** An instance: its two private attributes. *)
Record t : Type := Build { __alleles : pyseq A; __alleles_indexes : pyseq Q }.

(** The heap of instances, and the tape of numpy's generator. *)
Record world : Type := World { heap : list t; rng : list nat }.

Definition addr := nat.

Definition load (self : addr) : M world t :=
  fun w =>
    match heap w !! self with
    | Some o => (w, Ok o)
    | None => (w, Raise AttributeError)
    end.

Definition store (self : addr) (o : t) : M world unit :=
  modify (fun w => World (<[self := o]> (heap w)) (rng w)).

Definition alloc (o : t) : M world addr :=
  fun w => (World (heap w ++ [o]) (rng w), Ok (length (heap w))).

(** [np.random.random()] *)
Definition np_random_random : M world Q :=
  let* r := next_draw rng (fun tape w => World (heap w) tape) in
  ret (float_of_draw r).

(** Properties. *)
Definition n_allelles (self : addr) : M world nat :=
  let* o := load self in ret (length (items (__alleles o))).

Definition alleles_indexes (self : addr) : M world (pyseq Q) :=
  let* o := load self in ret (np_array (__alleles_indexes o)).

Definition alleles (self : addr) : M world (pyseq A) :=
  let* o := load self in ret (np_array (__alleles o)).

Definition add_allele (self : addr) (allele : A) (index : option Q) : M world unit :=
  let* o := load self in
  let* a' := from_outcome (append (__alleles o) allele) in
  let* _ := store self (Build a' (__alleles_indexes o)) in
  let* index :=
    match index with
    | None => np_random_random
    | Some i => ret i
    end in
  let* o := load self in
  let* i' := from_outcome (append (__alleles_indexes o) index) in
  store self (Build (__alleles o) i').

Definition __init__ (alleles : option (list A)) (indexes : option (list (option Q)))
  : M world addr :=
  let* self := alloc (Build (Seq PyList []) (Seq PyList [])) in
  match alleles with
  | None => ret self
  | Some alleles =>
      let indexes :=
        match indexes with
        | None => replicate (length alleles) None
        | Some indexes => indexes
        end in
      let* _ :=
        for_each (zip alleles indexes)
          (fun '(allele, index) => add_allele self allele index) in
      ret self
  end.

Definition __gene_selector (self : addr) (start stop : Q) : M world (pyseq bool) :=
  let* selector := alleles_indexes self in
  ret (Seq NdArray (in_range start stop (items selector))).

Definition __getslice__ (self : addr) (i j : Q) : M world (pyseq A * pyseq Q) :=
  let* selector := __gene_selector self i j in
  let* a := alleles self in
  let* a' := from_outcome (getitem_mask a selector) in
  let* o := load self in
  let* i' := from_outcome (getitem_mask (__alleles_indexes o) selector) in
  ret (a', i').

Definition get_genes_outside_range (self : addr) (start stop : Q)
  : M world (pyseq A * pyseq Q) :=
  let* selector := __gene_selector self start stop in
  let selector := logical_not selector in
  let* a := alleles self in
  let* a' := from_outcome (getitem_mask a selector) in
  let* i := alleles_indexes self in
  let* i' := from_outcome (getitem_mask i selector) in
  ret (a', i').

Definition copy (self : addr) : M world addr :=
  let* a := alleles self in
  let* i := alleles_indexes self in
  __init__ (Some (items a)) (Some (Some <$> items i)).

Definition remove_slice (self : addr) (start stop : Q) : M world unit :=
  let* selector := __gene_selector self start stop in
  let selector := logical_not selector in
  let* a := alleles self in
  let* a' := from_outcome (getitem_mask a selector) in
  let* o := load self in
  let* _ := store self (Build a' (__alleles_indexes o)) in
  let* o := load self in
  let* i' := from_outcome (getitem_mask (__alleles_indexes o) selector) in
  let* o := load self in
  store self (Build (__alleles o) i').

(** The (allele, position) pairs an instance holds. *)
Definition content (o : t) : list (A * Q) :=
  zip (items (__alleles o)) (items (__alleles_indexes o)).

(** The positions of every instance are in a Python list: the constructor
    sets up a list, [add_allele] appends to it, and the one method that
    would replace it fails before it does. *)
Definition list_backed (w : world) : Prop :=
  forall a o, heap w !! a = Some o -> kind (__alleles_indexes o) = PyList.

End gene_pool.
Arguments t A : clear implicits.
Arguments world A : clear implicits.

End GenePool.

(** ** The evolution engine: class [Evolve] *)

Module Evolve.
Import GenePool.

(** [l[i]] for a Python list and a Python integer. *)
Definition list_getitem {X} (l : list X) (i : Z) : outcome X :=
  let n := Z.of_nat (length l) in
  let k := if (i <? 0)%Z then (n + i)%Z else i in
  if (k <? 0)%Z then Raise IndexError
  else match l !! Z.to_nat k with
       | Some x => Ok x
       | None => Raise IndexError
       end.

(** [a + b] for two one-dimensional numpy arrays: the element-wise sum, a
    one-element array being stretched to the length of the other. *)
Definition np_add {X} (add : X -> X -> X) (a b : pyseq X) : outcome (pyseq X) :=
  match items a, items b with
  | [x], ys => Ok (Seq NdArray (add x <$> ys))
  | xs, [y] => Ok (Seq NdArray ((fun x => add x y) <$> xs))
  | xs, ys =>
      if decide (length xs = length ys)
      then Ok (Seq NdArray (zip_with add xs ys))
      else Raise ValueError
  end.

(** The truth value of an optional integer argument: [None] and [0] are false. *)
Definition truthy (v : option Z) : bool :=
  match v with
  | Some z => negb (z =? 0)%Z
  | None => false
  end.

Section evolve.
(** Alleles, compared with [==] and stored by numpy; uniqueness keys,
    hashable. *)
Context {A : Type} `{EqDecision A} `{!Dtype A}.
Context {K : Type} `{Countable K}.

Definition gene := string.

(** What a candidate's [genes] attribute is: the engine uses it as a
    dictionary from gene names to alleles in [generate_random_parent] and
    [mutate], and as a [gene_pool] instance in [cross_over]. *)
Inductive genes_t :=
| Dict (d : gmap gene A)
| Index (a : addr).

Record Evolvable := Candidate { genes : genes_t; cache_attrs : bool }.

(** The two ways the engine calls the candidate class. *)
Inductive ctor_args :=
| FromKeys (keys : list gene)
| FromArrays (alleles : pyseq A) (indexes : pyseq Q).

(** The candidate class is the caller's.  Its constructor and its three
    capabilities are parameters; the capabilities are functions of the
    gene collection, and the caching flag does not change them. *)
Variable evolvable_class : ctor_args -> Evolvable.
Variable can_survive : genes_t -> bool.
Variable fitness_level : genes_t -> Q.
Variable unique : genes_t -> K.
(** [+] on two alleles, as numpy applies it element-wise. *)
Variable allele_add : A -> A -> A.

(** [genes.values()] *)
Definition genes_values (g : genes_t) : outcome (list A) :=
  match g with
  | Dict d => Ok (map_to_list d).*2
  | Index _ => Raise AttributeError
  end.

(** [genes[k] = v] *)
Definition genes_setitem (g : genes_t) (k : gene) (v : A) : outcome genes_t :=
  match g with
  | Dict d => Ok (Dict (<[k := v]> d))
  | Index _ => Raise TypeError
  end.

(** The engine's attributes.  The gene pool is a dictionary, kept as the
    list of its items in iteration order. *)
Record engine := Engine {
  gene_pool : list (gene * list A);
  population : list Evolvable;
  best : list Evolvable
}.

(** The engine, the heap of allele indexes, and the tape of the [random]
    module. *)
Record state := State { self : engine; world : GenePool.world A; tape : list nat }.

Definition lift {X} (m : M (GenePool.world A) X) : M state X :=
  fun s => let '(w, o) := m (world s) in (State (self s) w (tape s), o).

Definition set_population (p : list Evolvable) : M state unit :=
  modify (fun s =>
    State (Engine (gene_pool (self s)) p (best (self s))) (world s) (tape s)).

Definition set_best_attr (b : list Evolvable) : M state unit :=
  modify (fun s =>
    State (Engine (gene_pool (self s)) (population (self s)) b) (world s) (tape s)).

(** [d.keys()] and [d[k]] for the gene pool. *)
Definition keys (pool : list (gene * list A)) : list gene := pool.*1.

Fixpoint dict_getitem (pool : list (gene * list A)) (k : gene) : outcome (list A) :=
  match pool with
  | [] => Raise KeyError
  | (k', v) :: pool' => if decide (k' = k) then Ok v else dict_getitem pool' k
  end.

(** The [random] module. *)
Definition draw : M state nat :=
  next_draw tape (fun t s => State (self s) (world s) t).

(** [random.choice(seq)] *)
Definition random_choice {X} (l : list X) : M state X :=
  let* r := draw in
  match l !! index_of_draw r (length l) with
  | Some x => ret x
  | None => raise IndexError
  end.

(** [random.randint(a, b)]: an integer of the closed range. *)
Definition random_randint (a b : Z) : M state Z :=
  if (b <? a)%Z then raise ValueError
  else let* r := draw in ret (a + Z.of_nat r mod (b - a + 1))%Z.

(** [random.random(2)]: a pair of floats.  [cross_over] calls the module
    with the pair form of [random] and the one-argument form of [randint];
    both are given the meaning the call asks for.  (The standard module that
    [import random] binds takes no argument in [random] and two in
    [randint], and raises [TypeError] on these calls.) *)
Definition random_random_pair : M state (Q * Q) :=
  let* r0 := draw in
  let* r1 := draw in
  ret (float_of_draw r0, float_of_draw r1).

(** [random.randint(n)] with a single argument: an index below [n]. *)
Definition random_randint_below (n : Z) : M state Z :=
  if (n <=? 0)%Z then raise ValueError
  else let* r := draw in ret (Z.of_nat r mod n)%Z.

(** *** [set_best] and [best_parents] *)

(** The loop of [set_best]: the set of keys seen and the list built so far. *)
Definition keep_first (acc : gset K * list Evolvable) (v : Evolvable)
  : gset K * list Evolvable :=
  if decide (unique (genes v) ∈ acc.1) then acc
  else ({[unique (genes v)]} ∪ acc.1, acc.2 ++ [v]).

(** [sorted(l, key=lambda k: k.fitness_level(), reverse=True)]: the stable
    sort, candidates of equal fitness staying in the order they had. *)
Fixpoint insert_desc (v : Evolvable) (l : list Evolvable) : list Evolvable :=
  match l with
  | [] => [v]
  | y :: l' =>
      if Qle_bool (fitness_level (genes y)) (fitness_level (genes v))
      then v :: y :: l'
      else y :: insert_desc v l'
  end.

Definition sorted_desc (l : list Evolvable) : list Evolvable :=
  foldr insert_desc [] l.

Definition new_best (best population : list Evolvable) (n_best : Z) : list Evolvable :=
  let values := best ++ population in
  let best := (foldl keep_first (∅, []) values).2 in
  slice_to (sorted_desc best) n_best.

Definition set_best (n_best : Z) : M state unit :=
  let* b := gets (fun s => best (self s)) in
  let* p := gets (fun s => population (self s)) in
  set_best_attr (new_best b p n_best).

Definition best_parents (n : Z) : M state (list Evolvable) :=
  let* p := gets (fun s => population (self s)) in
  ret (slice_to (sorted_desc p) n).

(** *** [mutate] *)

(** The candidate is changed in place; the embedding returns it. *)
Definition mutate (fuel : nat) (evolvable : Evolvable) (n1 n2 : Z) : M state Evolvable :=
  let* swap := random_randint n1 n2 in
  fold_each (range swap) (fun evolvable _ =>
    while_true fuel (fun _ : unit =>
      let* pool := gets (fun s => gene_pool (self s)) in
      let* random_gene := random_choice (keys pool) in
      let* alleles := from_outcome (dict_getitem pool random_gene) in
      let* random_allele := random_choice alleles in
      let* values := from_outcome (genes_values (genes evolvable)) in
      if decide (random_allele ∈ values) then ret (inl tt)
      else
        let* g := from_outcome (genes_setitem (genes evolvable) random_gene random_allele) in
        ret (inr (Candidate g (cache_attrs evolvable)))) tt) evolvable.

(** *** [generate_random_parent] *)

Definition generate_random_parent (fuel : nat) : M state Evolvable :=
  let* pool := gets (fun s => gene_pool (self s)) in
  let parent := evolvable_class (FromKeys (keys pool)) in
  while_true fuel (fun parent =>
    let* pool := gets (fun s => gene_pool (self s)) in
    let* parent := fold_each pool (fun parent '(gene, allele) =>
      while_true fuel (fun _ : unit =>
        let* random_allele := random_choice allele in
        let* values := from_outcome (genes_values (genes parent)) in
        if decide (random_allele ∈ values) then ret (inl tt)
        else
          let* g := from_outcome (genes_setitem (genes parent) gene random_allele) in
          ret (inr (Candidate g (cache_attrs parent)))) tt) parent in
    if can_survive (genes parent)
    then ret (inr (Candidate (genes parent) true))
    else ret (inl parent)) parent.

(** *** [cross_over] *)

(** [genes[i:j]]: a dictionary cannot hash the slice; an allele index is
    asked through [__getslice__].  (The interpreter hands a slice to
    [__getslice__] only when its bounds are integers, and to [__getitem__],
    which the class does not define, otherwise: a [TypeError] as well.) *)
Definition genes_getslice (g : genes_t) (i j : Q) : M state (pyseq A * pyseq Q) :=
  match g with
  | Dict _ => raise TypeError
  | Index a => lift (__getslice__ a i j)
  end.

(** [genes.get_genes_outside_range(i, j)] *)
Definition genes_outside_range (g : genes_t) (i j : Q) : M state (pyseq A * pyseq Q) :=
  match g with
  | Dict _ => raise AttributeError
  | Index a => lift (get_genes_outside_range a i j)
  end.

Definition cross_over (fuel : nat) (parents : list Evolvable) : M state Evolvable :=
  while_true fuel (fun _ : unit =>
    let* gene_range := random_random_pair in
    let* parents_genes :=
      comprehension parents (fun parent =>
        genes_getslice (genes parent) (fst gene_range) (snd gene_range)) in
    let* parents_remaining_genes :=
      comprehension parents (fun parent =>
        genes_outside_range (genes parent) (fst gene_range) (snd gene_range)) in
    let* chosen_parent_index := random_randint_below 2 in
    let* chosen_parent_genes :=
      from_outcome (list_getitem parents_genes chosen_parent_index) in
    let* discarded_parent_genes :=
      from_outcome (list_getitem parents_remaining_genes (1 - chosen_parent_index)) in
    let* new_alleles :=
      from_outcome (np_add allele_add (fst chosen_parent_genes) (fst discarded_parent_genes)) in
    let* new_indexes :=
      from_outcome (np_add Qplus (snd chosen_parent_genes) (snd discarded_parent_genes)) in
    let child := evolvable_class (FromArrays new_alleles new_indexes) in
    let* child := mutate fuel child 1 2 in
    if can_survive (genes child)
    then ret (inr (Candidate (genes child) true))
    else ret (inl tt)) tt.

(** *** [run] *)

Definition callback := Z -> M state unit.

Definition run (fuel : nat) (n n_best n_children : Z)
  (cb_every : option Z) (cb : option callback) : M state unit :=
  let any_ := bool_decide (is_Some cb) || truthy cb_every in
  let all_ := bool_decide (is_Some cb) && truthy cb_every in
  if any_ && negb all_ then raise ValueError
  else
    let* p := gets (fun s => population (self s)) in
    let* _ :=
      match p with
      | [] =>
          let* p := comprehension (range n_children)
                      (fun _ => generate_random_parent fuel) in
          let* _ := set_population p in
          set_best 5
      | _ :: _ => ret tt
      end in
    for_each (range n) (fun i =>
      let* _ :=
        match cb, cb_every with
        | Some cb, Some cb_every =>
            if (cb_every =? 0)%Z then raise ZeroDivisionError
            else if (i mod cb_every =? 0)%Z then cb i else ret tt
        | Some _, None => raise TypeError
        | None, _ => ret tt
        end in
      let* parents := best_parents 2 in
      let* p := comprehension (range n_children) (fun _ => cross_over fuel parents) in
      let* _ := set_population p in
      set_best n_best).

(** *** The properties the engine is specified by *)

(** The engine and the heap are [e] and [w]; the tape is free. *)
Definition kept (e : engine) (w : GenePool.world A) (s : state) : Prop :=
  self s = e /\ world s = w.

(** No allele value occurs for two different genes. *)
Definition no_duplicate_alleles (d : gmap gene A) : Prop :=
  forall g1 g2 a, d !! g1 = Some a -> d !! g2 = Some a -> g1 = g2.

(** The number of genes whose entry is not the same in the two mappings. *)
Definition changed_entries (d d' : gmap gene A) : nat :=
  length (filter (fun g => d !! g <> d' !! g) (elements (dom d ∪ dom d'))).

(** Fitness order of an archive: never increasing, and the strict order of
    the specification. *)
Definition descending (l : list Evolvable) : Prop :=
  StronglySorted
    (fun x y => (fitness_level (genes y) <= fitness_level (genes x))%Q) l.

Definition strictly_descending (l : list Evolvable) : Prop :=
  StronglySorted
    (fun x y => (fitness_level (genes y) < fitness_level (genes x))%Q) l.

Definition unique_keys (l : list Evolvable) : Prop :=
  NoDup ((fun v => unique (genes v)) <$> l).

(** [v] stands in [values] before every other candidate with its key. *)
Definition first_occurrence (values : list Evolvable) (v : Evolvable) : Prop :=
  exists i, values !! i = Some v /\
    forall j u, j < i -> values !! j = Some u -> unique (genes u) <> unique (genes v).

(** The archive invariant as the specification words it. *)
Definition archive_invariant_strict (n_best : Z) (l : list Evolvable) : Prop :=
  (Z.of_nat (length l) <= n_best)%Z /\ strictly_descending l /\ unique_keys l.

End evolve.

Arguments genes_t A : clear implicits.
Arguments Evolvable A : clear implicits.
Arguments ctor_args A : clear implicits.
Arguments engine A : clear implicits.
Arguments state A : clear implicits.

End Evolve.

(** ** Concrete instances used by the examples *)

Module Examples.
Import GenePool Evolve.

(** The alleles of the examples are Python integers, and [Z] holds their
    values.  [np.array] finds the dtype of each: [int64] when it fits,
    [uint64] from 2^63 to 2^64 - 1, a Python object beyond.  A list of one
    kind is held as it is; a list with both [int64] and [uint64] integers
    becomes an array of floats, every element rounded to the nearest float
    (53 bits, ties to even); with an integer beyond 64 bits the array holds
    the Python integers themselves. *)
Definition float64_of_int (z : Z) : Z :=
  let a := Z.abs z in
  if (a <? 2 ^ 53)%Z then z
  else
    let e := (Z.log2 a - 52)%Z in
    let q := (a / 2 ^ e)%Z in
    let r := (a mod 2 ^ e)%Z in
    let half := (2 ^ (e - 1))%Z in
    let q' :=
      if (r <? half)%Z then q
      else if (half <? r)%Z then (q + 1)%Z
      else if Z.even q then q else (q + 1)%Z in
    (Z.sgn z * (q' * 2 ^ e))%Z.

Definition is_int64 (z : Z) : bool := (- 2 ^ 63 <=? z)%Z && (z <? 2 ^ 63)%Z.

Definition is_uint64 (z : Z) : bool := (2 ^ 63 <=? z)%Z && (z <? 2 ^ 64)%Z.

#[global] Instance python_ints : Dtype Z := fun l z =>
  if forallb is_int64 l then z
  else if forallb is_uint64 l then z
  else if forallb (fun x => is_int64 x || is_uint64 x) l then float64_of_int z
  else z.

(** An empty heap, and [gene_pool([7, 8], [0.25, 0.75])] built in it. *)
Definition empty_world : GenePool.world Z := World [] [].

Definition two_alleles : M (GenePool.world Z) addr :=
  __init__ (Some [7; 8]%Z) (Some [Some (1 # 4)%Q; Some (3 # 4)%Q]).

(** [gene_pool()] *)
Definition no_alleles : M (GenePool.world Z) addr := __init__ None None.


(** A candidate class whose constructor starts from an empty mapping, and
    whose candidates all survive. *)
Definition empty_candidate {A} (_ : ctor_args A) : Evolvable A :=
  Candidate (Dict ∅) false.

Definition always_survives {A} (_ : genes_t A) : bool := true.

(** The gene pool of the end-to-end scenario, and an engine on it. *)
Definition colors_and_sizes : list (gene * list string) :=
  [("color", ["red"; "blue"]); ("size", ["small"; "large"])].

Definition colors_state (tape : list nat) : state string :=
  State (Engine colors_and_sizes [] []) (World [] []) tape.

(** Candidates with one gene ["g"] holding an integer: the allele is the
    uniqueness key, and the fitness is either the allele or the same for
    all. *)
Definition allele_of_g (g : genes_t Z) : Z :=
  match g with
  | Dict d => default 0%Z (d !! "g")
  | Index a => Z.of_nat a
  end.

Definition allele_fitness (g : genes_t Z) : Q := inject_Z (allele_of_g g).

Definition flat_fitness (_ : genes_t Z) : Q := 0%Q.

Definition with_g (z : Z) : Evolvable Z := Candidate (Dict {["g" := z]}) true.

Definition one_gene (alleles : list Z) : list (gene * list Z) := [("g", alleles)].

Definition one_gene_state (alleles : list Z) (population best : list (Evolvable Z))
    (tape : list nat) : state Z :=
  State (Engine (one_gene alleles) population best) (World [] []) tape.

(** Two parents whose genes are the allele indexes [gene_pool([1], [0.5])]
    and [gene_pool([2], [0.25])]. *)
Definition two_parents : list (Evolvable Z) :=
  [Candidate (Index 0) true; Candidate (Index 1) true].

Definition two_parents_state (tape : list nat) : state Z :=
  State (Engine (one_gene [1; 2]%Z) [] [])
        (World [Build (Seq PyList [1%Z]) (Seq PyList [(1 # 2)%Q]);
                Build (Seq PyList [2%Z]) (Seq PyList [(1 # 4)%Q])] [])
        tape.

End Examples.

(** ** Further predicates and instances *)

Module Predicates.

(** A position lies outside the closed range from [start] to [stop]. *)
Definition outside_range (start stop p : Q) : bool :=
  negb (Qle_bool start p && Qle_bool p stop).

End Predicates.

Module MoreExamples.
Import GenePool Evolve Examples.

(** The instance [gene_pool([7, 8], [0.25, 0.75])], alone in a heap. *)
Definition seven_eight : GenePool.t Z :=
  Build (Seq PyList [7; 8]%Z) (Seq PyList [(1 # 4)%Q; (3 # 4)%Q]).

Definition one_index : GenePool.world Z := World [seven_eight] [].


(** A gene pool of two genes that offer the same single allele. *)
Definition two_genes_one_allele : list (gene * list Z) :=
  [("a", [1%Z]); ("b", [1%Z])].

Definition two_genes_state (tape : list nat) : state Z :=
  State (Engine two_genes_one_allele [] []) (World [] []) tape.

(** A progress callback that raises. *)
Definition failing_callback : Z -> M (state Z) unit := fun _ => raise KeyError.

End MoreExamples.

(** * Properties *)

(** ** The monad *)

Lemma bind_Ok {S X Y} (m : M S X) (k : X -> M S Y) s s' y :
  bind m k s = (s', Ok y) ->
  exists s1 x, m s = (s1, Ok x) /\ k x s1 = (s', Ok y).
Proof.
  unfold bind. destruct (m s) as [s1 [x|e|]]; intros E; try discriminate.
  by exists s1, x.
Qed.

Lemma bind_bind {S X Y Z} (m : M S X) (f : X -> M S Y) (k : Y -> M S Z) s :
  bind (bind m f) k s = bind m (fun x => bind (f x) k) s.
Proof. unfold bind. by destruct (m s) as [s1 [x|e|]]. Qed.

Lemma bind_ret {S X Y} (x : X) (k : X -> M S Y) s : bind (ret x) k s = k x s.
Proof. done. Qed.

Lemma bind_Ok_eq {S X Y} (x : X) (k : X -> M S Y) s :
  bind (from_outcome (Ok x)) k s = k x s.
Proof. done. Qed.

Lemma bind_Raise_eq {S X Y} e (k : X -> M S Y) s :
  bind (from_outcome (Raise e)) k s = (s, Raise e).
Proof. done. Qed.

Lemma bind_raise {S X Y} e (k : X -> M S Y) s : bind (raise e) k s = (s, Raise e).
Proof. done. Qed.

Lemma bind_gets {S X Y} (f : S -> X) (k : X -> M S Y) s : bind (gets f) k s = k (f s) s.
Proof. done. Qed.

Lemma bind_modify {S Y} (f : S -> S) (k : unit -> M S Y) s :
  bind (modify f) k s = k tt (f s).
Proof. done. Qed.

Ltac mstep :=
  first [ rewrite bind_bind | rewrite bind_ret | rewrite bind_Ok_eq
        | rewrite bind_Raise_eq | rewrite bind_raise | rewrite bind_gets
        | rewrite bind_modify | progress cbv beta zeta ].

Lemma preserves_ret {S X} (P : S -> Prop) (x : X) : preserves P (ret x).
Proof. by intros s. Qed.

Lemma preserves_from_outcome {S X} (P : S -> Prop) (o : outcome X) :
  preserves P (from_outcome o).
Proof. by intros s. Qed.

Lemma preserves_raise {S X} (P : S -> Prop) e : preserves P (raise (X:=X) e).
Proof. by intros s. Qed.

Lemma preserves_gets {S X} (P : S -> Prop) (f : S -> X) : preserves P (gets f).
Proof. by intros s. Qed.

Lemma preserves_modify {S} (P : S -> Prop) (f : S -> S) :
  (forall s, P s -> P (f s)) -> preserves P (modify f).
Proof. intros Hf s Hs. by apply Hf. Qed.

Lemma preserves_bind {S X Y} (P : S -> Prop) (m : M S X) (k : X -> M S Y) :
  preserves P m -> (forall x, preserves P (k x)) -> preserves P (bind m k).
Proof.
  intros Hm Hk s Hs. unfold bind. specialize (Hm s Hs).
  destruct (m s) as [s1 [x|e|]]; simpl in *; auto. by apply Hk.
Qed.

Lemma preserves_bind_Ok {S X Y} (P : S -> Prop) (m : M S X) (k : X -> M S Y) :
  preserves P m ->
  (forall x s s', P s -> m s = (s', Ok x) -> P (k x s').1) ->
  preserves P (bind m k).
Proof.
  intros Hm Hk s Hs. unfold bind. specialize (Hm s Hs).
  destruct (m s) as [s1 [x|e|]] eqn:E; simpl in *; auto. by eapply Hk.
Qed.

Lemma preserves_elim {S X} (P : S -> Prop) (m : M S X) s :
  preserves P m -> P s -> P (m s).1.
Proof. intros Hm. apply Hm. Qed.

Lemma preserves_for_each {S Y} (P : S -> Prop) (l : list Y) (body : Y -> M S unit) :
  (forall y, preserves P (body y)) -> preserves P (for_each l body).
Proof.
  intros Hb. induction l as [|y l IH]; simpl.
  - apply preserves_ret.
  - apply preserves_bind; auto.
Qed.

Lemma preserves_fold_each {S Acc Y} (P : S -> Prop) (l : list Y)
    (body : Acc -> Y -> M S Acc) (a : Acc) :
  (forall a y, preserves P (body a y)) -> preserves P (fold_each l body a).
Proof.
  intros Hb. revert a. induction l as [|y l IH]; intros a; simpl.
  - apply preserves_ret.
  - apply preserves_bind; auto.
Qed.

Lemma preserves_comprehension {S X Y} (P : S -> Prop) (l : list X) (f : X -> M S Y) :
  (forall x, preserves P (f x)) -> preserves P (comprehension l f).
Proof.
  intros Hf. induction l as [|x l IH]; simpl.
  - apply preserves_ret.
  - apply preserves_bind; auto. intros y. apply preserves_bind; auto.
    intros ys. apply preserves_ret.
Qed.

Lemma preserves_while_true {S Acc X} (P : S -> Prop) fuel
    (body : Acc -> M S (Acc + X)) (a : Acc) :
  (forall a, preserves P (body a)) -> preserves P (while_true fuel body a).
Proof.
  intros Hb. revert a. induction fuel as [|fuel IH]; intros a; simpl.
  - apply preserves_from_outcome.
  - apply preserves_bind; auto. intros [a'|x]; auto. apply preserves_ret.
Qed.

Lemma hoare_while_true {S Acc X} (I : Acc -> S -> Prop) (Q : X -> S -> Prop) fuel
    (body : Acc -> M S (Acc + X)) :
  (forall a, hoare (I a) (body a)
     (fun r s => match r with inl a' => I a' s | inr x => Q x s end)) ->
  forall a, hoare (I a) (while_true fuel body a) Q.
Proof.
  intros Hb. induction fuel as [|fuel IH]; intros a s s' x Hs; simpl.
  - discriminate.
  - intros E. apply bind_Ok in E as (s1 & r & E1 & E2).
    specialize (Hb a s s1 r Hs E1). destruct r as [a'|x'].
    + exact (IH a' s1 s' x Hb E2).
    + injection E2 as <- <-. done.
Qed.

Lemma hoare_fold_each {S Acc Y} (I : list Y -> Acc -> S -> Prop)
    (body : Acc -> Y -> M S Acc) (l : list Y) :
  (forall done a y, y ∈ l ->
     hoare (I done a) (body a y) (fun a' s => I (done ++ [y]) a' s)) ->
  forall done a, hoare (I done a) (fold_each l body a) (fun a' s => I (done ++ l) a' s).
Proof.
  induction l as [|y l IH]; intros Hb done a s s' x Hs; simpl.
  - intros [= <- <-]. by rewrite app_nil_r.
  - intros E. apply bind_Ok in E as (s1 & a1 & E1 & E2).
    assert (y ∈ y :: l) as Hy by apply list_elem_of_here.
    specialize (Hb done a y Hy s s1 a1 Hs E1) as Hb1.
    assert (forall done a y', y' ∈ l ->
      hoare (I done a) (body a y') (fun a' s => I (done ++ [y']) a' s)) as Hb'.
    { intros done' a' y' Hy'. apply Hb. by apply list_elem_of_further. }
    specialize (IH Hb' (done ++ [y]) a1 s1 s' x Hb1 E2).
    by rewrite <- app_assoc in IH.
Qed.

(** Reasoning on a loop that returned, from an invariant. *)
Ltac while_inv E I Q :=
  match type of E with
  | while_true ?fuel ?body ?a0 ?s0 = (?s1, Ok ?x0) =>
      let Hb := fresh "Hbody" in
      let Hq := fresh "Hpost" in
      assert (Hb : forall a, hoare (I a) (body a)
                (fun r s => match r with inl a' => I a' s | inr x => Q x s end));
      [ | assert (Hq : Q x0 s1);
          [ apply (hoare_while_true I Q fuel body Hb a0 s0 s1 x0); [ | exact E ]
          | clear Hb ] ]
  end.

Ltac fold_inv E J :=
  match type of E with
  | fold_each ?l ?body ?a0 ?s0 = (?s1, Ok ?x0) =>
      let Hb := fresh "Hbody" in
      let Hq := fresh "Hpost" in
      assert (Hb : forall done a y, y ∈ l ->
                hoare (J done a) (body a y) (fun a' s => J (done ++ [y]) a' s));
      [ | assert (Hq : J ([] ++ l) x0 s1);
          [ apply (hoare_fold_each J body l Hb [] a0 s0 s1 x0); [ | exact E ]
          | clear Hb ] ]
  end.

(** ** The allele index *)

Module GenePoolFacts.
Import GenePool.

Section facts.
Context {A : Type} `{!Dtype A}.
Implicit Types (w : world A) (o : t A) (self : addr).

Lemma load_Some w self o : heap w !! self = Some o -> load self w = (w, Ok o).
Proof. intros E. unfold load. by rewrite E. Qed.

Lemma load_None w self :
  heap w !! self = None -> load self w = (w, Raise AttributeError).
Proof. intros E. unfold load. by rewrite E. Qed.

Lemma preserves_load (P : world A -> Prop) self : preserves P (load self).
Proof. intros w Hw. unfold load. by destruct (heap w !! self). Qed.

Lemma bind_load {Y} w self o (k : t A -> M (world A) Y) :
  heap w !! self = Some o -> bind (load self) k w = k o w.
Proof. intros E. unfold bind. by rewrite (load_Some _ _ _ E). Qed.

Ltac mrun Ho := repeat first [ rewrite (bind_load _ _ _ _ Ho) | mstep ].

Lemma world_eta w : World (heap w) (rng w) = w.
Proof. by destruct w. Qed.

(** [np.array] returns an array with as many elements as its argument;
    a list of floats, and an array, are held as they are. *)
Lemma np_array_eta {X} `{!Dtype X} (s : pyseq X) :
  np_array s = Seq NdArray (items (np_array s)).
Proof. unfold np_array. by destruct (kind s). Qed.

Lemma np_array_length {X} `{!Dtype X} (s : pyseq X) :
  length (items (np_array s)) = length (items s).
Proof. unfold np_array. destruct (kind s); cbn; [by rewrite length_fmap|done]. Qed.

Lemma np_array_floats (s : pyseq Q) : np_array s = Seq NdArray (items s).
Proof.
  unfold np_array. destruct (kind s); [|done].
  f_equal. unfold astype, float64. apply list_fmap_id.
Qed.

Lemma np_array_of_array {X} `{!Dtype X} (l : list X) :
  np_array (Seq NdArray l) = Seq NdArray l.
Proof. done. Qed.


(** The two queries assign nothing. *)
Lemma getslice_preserves (P : world A -> Prop) self i j :
  preserves P (__getslice__ self i j).
Proof.
  unfold __getslice__, __gene_selector, alleles, alleles_indexes.
  repeat first
    [ apply preserves_load | apply preserves_ret | apply preserves_from_outcome
    | apply preserves_bind | intro ].
Qed.

Lemma outside_range_preserves (P : world A -> Prop) self start stop :
  preserves P (get_genes_outside_range self start stop).
Proof.
  unfold get_genes_outside_range, __gene_selector, alleles, alleles_indexes.
  repeat first
    [ apply preserves_load | apply preserves_ret | apply preserves_from_outcome
    | apply preserves_bind | intro ].
Qed.

Lemma getitem_mask_list {X} (s : pyseq X) mask :
  kind s = PyList -> getitem_mask s mask = Raise TypeError.
Proof. intros Hk. unfold getitem_mask. by rewrite Hk. Qed.

Lemma getitem_mask_array {X} (l : list X) mask :
  length (items mask) = length l ->
  getitem_mask (Seq NdArray l) mask = Ok (Seq NdArray (compress (items mask) l)).
Proof. intros Hl. unfold getitem_mask. cbn [kind items]. by rewrite decide_True. Qed.

(** With its positions in a Python list, an instance answers no range
    query: [__getslice__] subscripts the list itself with the mask. *)
Lemma getslice_list_backed w self o i j :
  heap w !! self = Some o ->
  kind (__alleles_indexes o) = PyList ->
  exists e, __getslice__ self i j w = (w, Raise e).
Proof.
  intros Ho Hk.
  unfold __getslice__, __gene_selector, alleles, alleles_indexes. mrun Ho.
  destruct (getitem_mask _ _) as [a'|e|] eqn:Ea; mrun Ho; eauto.
  - rewrite (getitem_mask_list _ _ Hk). mrun Ho. eauto.
  - rewrite (np_array_eta (__alleles o)) in Ea.
    unfold getitem_mask in Ea. cbn [kind] in Ea. by case_decide.
Qed.

Lemma getslice_aligned_list_backed w self o i j :
  heap w !! self = Some o ->
  kind (__alleles_indexes o) = PyList ->
  length (items (__alleles o)) = length (items (__alleles_indexes o)) ->
  __getslice__ self i j w = (w, Raise TypeError).
Proof.
  intros Ho Hk Hlen.
  unfold __getslice__, __gene_selector, alleles, alleles_indexes. mrun Ho.
  rewrite np_array_floats, (np_array_eta (__alleles o)).
  rewrite getitem_mask_array
    by (cbn [items]; unfold in_range; by rewrite length_fmap, np_array_length).
  mrun Ho. rewrite (getitem_mask_list _ _ Hk). by mrun Ho.
Qed.

(** The complement query reads the positions through the array property
    and returns the entries outside the range. *)
Lemma outside_range_aligned w self o start stop :
  heap w !! self = Some o ->
  length (items (__alleles o)) = length (items (__alleles_indexes o)) ->
  let mask := negb <$> in_range start stop (items (__alleles_indexes o)) in
  get_genes_outside_range self start stop w
    = (w, Ok (Seq NdArray (compress mask (items (np_array (__alleles o)))),
              Seq NdArray (compress mask (items (__alleles_indexes o))))).
Proof.
  intros Ho Hlen mask.
  unfold get_genes_outside_range, __gene_selector, alleles, alleles_indexes.
  mrun Ho. rewrite !np_array_floats, (np_array_eta (__alleles o)).
  rewrite getitem_mask_array
    by (cbn [items logical_not]; unfold in_range;
        by rewrite !length_fmap, np_array_length).
  mrun Ho. rewrite np_array_floats.
  rewrite getitem_mask_array
    by (cbn [items logical_not]; unfold in_range; by rewrite !length_fmap).
  by mrun Ho.
Qed.



(** Appending to an instance that holds two lists. *)
Lemma add_allele_lists w self xs ys allele index :
  heap w !! self = Some (Build (Seq PyList xs) (Seq PyList ys)) ->
  add_allele self allele (Some index) w
    = (World (<[self := Build (Seq PyList (xs ++ [allele])) (Seq PyList (ys ++ [index]))]>
                (heap w)) (rng w), Ok tt).
Proof.
  intros Ho. pose proof (lookup_lt_Some _ _ _ Ho) as Hlt.
  unfold add_allele. mrun Ho. cbn [append kind items __alleles __alleles_indexes].
  unfold store at 1. mrun Ho.
  erewrite bind_load; [|cbn [heap]; by apply list_lookup_insert_eq].
  cbn [append kind items __alleles __alleles_indexes]. mrun Ho.
  unfold store, modify. cbn [heap rng].
  by rewrite list_insert_insert_eq.
Qed.

Lemma init_loop (ps : list (A * Q)) w self xs ys :
  heap w !! self = Some (Build (Seq PyList xs) (Seq PyList ys)) ->
  for_each ((fun p => (p.1, Some p.2)) <$> ps)
      (fun '(allele, index) => add_allele self allele index) w
    = (World (<[self := Build (Seq PyList (xs ++ ps.*1)) (Seq PyList (ys ++ ps.*2))]>
                (heap w)) (rng w), Ok tt).
Proof.
  revert w xs ys. induction ps as [|[a i] ps IH]; intros w xs ys Ho.
  - cbn. rewrite !app_nil_r, list_insert_id by done. by rewrite world_eta.
  - pose proof (lookup_lt_Some _ _ _ Ho) as Hlt.
    cbn [fmap list_fmap for_each fst snd]. unfold bind at 1.
    rewrite (add_allele_lists _ _ _ _ _ _ Ho).
    erewrite IH; [|cbn [heap]; by apply list_lookup_insert_eq].
    cbn [heap rng]. by rewrite list_insert_insert_eq, <- !app_assoc.
Qed.

Lemma zip_some (als : list A) (idx : list Q) :
  zip als (Some <$> idx) = (fun p => (p.1, Some p.2)) <$> zip als idx.
Proof.
  revert idx. induction als as [|a als IH]; intros [|i idx]; simpl; auto.
  by rewrite IH.
Qed.


Lemma content_zip (ps : list (A * Q)) :
  content (Build (Seq PyList ps.*1) (Seq PyList ps.*2)) = ps.
Proof. unfold content. simpl. apply zip_fst_snd. Qed.

(** On an instance with as many alleles as positions, [remove_slice]
    replaces the alleles by those outside the range and then raises
    [TypeError], the positions still those of all the former entries. *)
Lemma remove_slice_list_backed w self o start stop :
  heap w !! self = Some o ->
  kind (__alleles_indexes o) = PyList ->
  length (items (__alleles o)) = length (items (__alleles_indexes o)) ->
  let mask := negb <$> in_range start stop (items (__alleles_indexes o)) in
  remove_slice self start stop w
    = (World (<[self := Build (Seq NdArray (compress mask (items (np_array (__alleles o)))))
                          (__alleles_indexes o)]> (heap w)) (rng w),
       Raise TypeError).
Proof.
  intros Ho Hk Hlen mask. pose proof (lookup_lt_Some _ _ _ Ho) as Hlt.
  unfold remove_slice, __gene_selector, alleles, alleles_indexes.
  mrun Ho. rewrite np_array_floats, (np_array_eta (__alleles o)).
  rewrite getitem_mask_array
    by (cbn [items logical_not]; unfold in_range;
        by rewrite !length_fmap, np_array_length).
  mrun Ho. unfold store at 1. mrun Ho.
  erewrite bind_load; [|cbn [heap]; by apply list_lookup_insert_eq].
  cbn [__alleles_indexes]. rewrite (getitem_mask_list _ _ Hk).
  by mrun Ho.
Qed.

(** Every heap the class can build is list-backed. *)
Lemma load_Ok w self w' o :
  load self w = (w', Ok o) -> w' = w /\ heap w !! self = Some o.
Proof.
  unfold load. destruct (heap w !! self); [|discriminate]. by intros [= <- <-].
Qed.

Lemma list_backed_insert w self o r :
  list_backed w -> kind (__alleles_indexes o) = PyList ->
  list_backed (World (<[self := o]> (heap w)) r).
Proof.
  intros Hw Hk a o'. cbn [heap]. intros Ha.
  apply list_lookup_insert_Some in Ha as [(-> & <- & _)|[_ Ha]]; [done|].
  by eapply Hw.
Qed.

Lemma store_list_backed self o :
  kind (__alleles_indexes o) = PyList -> preserves list_backed (store self o).
Proof.
  intros Hk. apply preserves_modify. intros w Hw. by apply list_backed_insert.
Qed.

Lemma np_random_random_list_backed : preserves (list_backed (A:=A)) np_random_random.
Proof.
  intros w Hw. unfold np_random_random, bind, next_draw.
  destruct (rng w); [done|]. exact Hw.
Qed.

Lemma append_kind {X} (l l' : pyseq X) x : append l x = Ok l' -> kind l' = PyList.
Proof. unfold append. destruct (kind l); [|discriminate]. by intros [= <-]. Qed.

Lemma add_allele_list_backed self (allele : A) index :
  preserves list_backed (add_allele self allele index).
Proof.
  unfold add_allele.
  apply preserves_bind_Ok; [apply preserves_load|].
  intros o w w' Hw Eo. apply load_Ok in Eo as [-> Ho].
  pose proof (Hw _ _ Ho) as Hk.
  refine (preserves_elim list_backed _ _ _ Hw).
  apply preserves_bind; [apply preserves_from_outcome|]. intros a'.
  apply preserves_bind; [by apply store_list_backed|]. intros [].
  apply preserves_bind.
  { destruct index; [apply preserves_ret|apply np_random_random_list_backed]. }
  intros i. apply preserves_bind_Ok; [apply preserves_load|].
  clear dependent w. clear dependent o.
  intros o w w' Hw Eo. apply load_Ok in Eo as [-> Ho].
  refine (preserves_elim list_backed _ _ _ Hw).
  destruct (append (__alleles_indexes o) i) as [i'| |] eqn:Ei;
    try (apply preserves_bind; [apply preserves_from_outcome|]; intros ?;
         apply preserves_ret).
  - intros w1 Hw1. rewrite bind_Ok_eq.
    apply store_list_backed; [|done]. cbn [__alleles_indexes].
    by eapply append_kind.
  - intros w1 Hw1. by rewrite bind_Raise_eq.
  - intros w1 Hw1. done.
Qed.

Lemma init_list_backed alleles indexes :
  preserves list_backed (__init__ (A:=A) alleles indexes).
Proof.
  unfold __init__. apply preserves_bind.
  - intros w Hw a o. cbn. intros Ha.
    apply lookup_app_Some in Ha as [Ha|[_ Ha]]; [by eapply Hw|].
    apply list_lookup_singleton_Some in Ha as [_ <-]. done.
  - intros self. destruct alleles; [|apply preserves_ret].
    apply preserves_bind; [|intros; apply preserves_ret].
    apply preserves_for_each. intros [a i]. apply add_allele_list_backed.
Qed.

Lemma copy_list_backed self : preserves list_backed (copy (A:=A) self).
Proof.
  unfold copy, alleles, alleles_indexes.
  repeat first
    [ apply init_list_backed | apply preserves_load | apply preserves_ret
    | apply preserves_bind | intro ].
Qed.

Lemma remove_slice_keeps_list_backed self start stop :
  preserves list_backed (remove_slice (A:=A) self start stop).
Proof.
  unfold remove_slice, __gene_selector, alleles, alleles_indexes.
  apply preserves_bind;
    [repeat first [apply preserves_load | apply preserves_ret
                  | apply preserves_bind | intro]|].
  intros selector. cbv zeta.
  apply preserves_bind;
    [repeat first [apply preserves_load | apply preserves_ret
                  | apply preserves_bind | intro]|].
  intros a. apply preserves_bind; [apply preserves_from_outcome|]. intros a'.
  apply preserves_bind_Ok; [apply preserves_load|].
  intros o w w' Hw Eo. apply load_Ok in Eo as [-> Ho].
  pose proof (Hw _ _ Ho) as Hk.
  refine (preserves_elim list_backed _ _ _ Hw).
  apply preserves_bind; [by apply store_list_backed|]. intros [].
  apply preserves_bind_Ok; [apply preserves_load|].
  clear dependent w. clear dependent o.
  intros o w w' Hw Eo. apply load_Ok in Eo as [-> Ho].
  rewrite (getitem_mask_list _ _ (Hw _ _ Ho)). by rewrite bind_Raise_eq.
Qed.


End facts.



(** C4.  On [gene_pool([7, 8], [0.25, 0.75])] the range query [[0:1]] raises
    [TypeError] and returns no entries, while [get_genes_outside_range(0, 1)]
    returns the empty pair of arrays: the two results do not make up the
    two entries of the index. *)
Theorem range_query_raises_type_error :
  (let* self := Examples.two_alleles in __getslice__ self 0%Q 1%Q) Examples.empty_world
    = (World [Build (Seq PyList [7; 8]%Z) (Seq PyList [1 # 4; 3 # 4]%Q)] [],
       Raise TypeError)
  /\ (let* self := Examples.two_alleles in get_genes_outside_range self 0%Q 1%Q)
       Examples.empty_world
    = (World [Build (Seq PyList [7; 8]%Z) (Seq PyList [1 # 4; 3 # 4]%Q)] [],
       Ok (Seq NdArray [], Seq NdArray [])).
Proof. split; reflexivity. Qed.

(** C7.  A range query that matches no entry raises [TypeError] instead of
    returning an empty result, on [gene_pool([7, 8], [0.25, 0.75])] with
    bounds (2, 3) and on the empty [gene_pool()], while the complement query
    returns its result on both. *)
Theorem empty_range_query_raises_type_error :
  (let* self := Examples.two_alleles in __getslice__ self 2%Q 3%Q) Examples.empty_world
    = (World [Build (Seq PyList [7; 8]%Z) (Seq PyList [1 # 4; 3 # 4]%Q)] [],
       Raise TypeError)
  /\ (let* self := Examples.no_alleles in __getslice__ self 0%Q 1%Q) Examples.empty_world
    = (World [Build (Seq PyList []) (Seq PyList [])] [], Raise TypeError)
  /\ (let* self := Examples.two_alleles in get_genes_outside_range self 2%Q 3%Q)
       Examples.empty_world
    = (World [Build (Seq PyList [7; 8]%Z) (Seq PyList [1 # 4; 3 # 4]%Q)] [],
       Ok (Seq NdArray [7; 8]%Z, Seq NdArray [1 # 4; 3 # 4]%Q))
  /\ (let* self := Examples.no_alleles in get_genes_outside_range self 0%Q 1%Q)
       Examples.empty_world
    = (World [Build (Seq PyList []) (Seq PyList [])] [],
       Ok (Seq NdArray [], Seq NdArray [])).
Proof. repeat split; reflexivity. Qed.

(** C8.  [remove_slice(0, 0.5)] on [gene_pool([7, 8], [0.25, 0.75])] raises
    [TypeError] after it has replaced the alleles: the instance is left with
    the one allele 8 and the two positions 0.25 and 0.75, so that 8 now stands
    at the position 7 had. *)
Theorem remove_slice_leaves_positions :
  (let* self := Examples.two_alleles in remove_slice self 0%Q (1 # 2)%Q)
      Examples.empty_world
    = (World [Build (Seq NdArray [8]%Z) (Seq PyList [1 # 4; 3 # 4]%Q)] [],
       Raise TypeError)
  /\ content (Build (Seq NdArray [8]%Z) (Seq PyList [1 # 4; 3 # 4]%Q))
    = [(8%Z, (1 # 4)%Q)].
Proof. split; reflexivity. Qed.

End GenePoolFacts.

(** ** The evolution engine *)

Module EvolveFacts.
Import GenePool Evolve.

Section facts.
Context {A : Type} `{EqDecision A} `{!Dtype A}.
Context {K : Type} `{Countable K}.
Variable evolvable_class : ctor_args A -> Evolvable A.
Variable can_survive : genes_t A -> bool.
Variable fitness_level : genes_t A -> Q.
Variable unique : genes_t A -> K.
Variable allele_add : A -> A -> A.

Implicit Types (s : state A) (d : gmap gene A) (pool : list (gene * list A)).

(** The [random] module only moves its tape. *)
Lemma draw_Ok s s' r :
  draw s = (s', Ok r) -> self s' = self s /\ world s' = world s.
Proof.
  unfold draw, next_draw. destruct (tape s); [discriminate|].
  by intros [= <- _].
Qed.

Lemma random_choice_Ok {X} (l : list X) s s' x :
  random_choice l s = (s', Ok x) ->
  x ∈ l /\ self s' = self s /\ world s' = world s.
Proof.
  unfold random_choice. intros E. apply bind_Ok in E as (s1 & r & E1 & E2).
  apply draw_Ok in E1 as [<- <-].
  destruct (l !! _) as [y|] eqn:Ey; [|discriminate].
  injection E2 as <- <-. split; [|done]. by eapply list_elem_of_lookup_2.
Qed.

Lemma random_randint_Ok a b s s' z :
  random_randint a b s = (s', Ok z) ->
  (a <= z <= b)%Z /\ self s' = self s /\ world s' = world s.
Proof.
  unfold random_randint. destruct (Z.ltb_spec b a); [discriminate|].
  intros E. apply bind_Ok in E as (s1 & r & E1 & E2).
  apply draw_Ok in E1 as [<- <-]. injection E2 as <- <-.
  split; [|done].
  pose proof (Z.mod_pos_bound (Z.of_nat r) (b - a + 1)). lia.
Qed.

(** [a in d.values()] *)
Lemma elem_of_values d a :
  a ∈ (map_to_list d).*2 <-> exists g, d !! g = Some a.
Proof.
  rewrite list_elem_of_fmap. split.
  - intros [[g a'] [-> Hin]]. exists g. by apply elem_of_map_to_list.
  - intros [g Hg]. exists (g, a). split; [done|]. by apply elem_of_map_to_list.
Qed.

(** Writing an allele no gene holds keeps the alleles distinct. *)
Lemma no_duplicate_insert d g a :
  no_duplicate_alleles d -> (forall g', d !! g' <> Some a) ->
  no_duplicate_alleles (<[g := a]> d).
Proof.
  intros Hd Ha g1 g2 v. rewrite !lookup_insert_Some.
  intros [[<- <-]|[Hne1 E1]] [[<- E2]|[Hne2 E2]]; try done.
  - subst. by destruct (Ha g2).
  - subst. by destruct (Ha g1).
  - by eapply Hd.
Qed.

(** C2.  A candidate returned by [generate_random_parent] has a gene
    mapping whose keys are exactly the declared genes, each with an allele
    of that gene's list, no allele value stands for two genes, and
    [can_survive()] holds.  The candidate class is assumed to start the
    mapping with keys among the names it is given. *)
Theorem generate_random_parent_spec fuel s s' parent d0 :
  genes (evolvable_class (FromKeys (keys (gene_pool (self s))))) = Dict d0 ->
  (forall g, is_Some (d0 !! g) -> g ∈ keys (gene_pool (self s))) ->
  generate_random_parent evolvable_class can_survive fuel s = (s', Ok parent) ->
  exists d,
    genes parent = Dict d /\
    (forall g, g ∈ keys (gene_pool (self s)) <-> is_Some (d !! g)) /\
    (forall g a, d !! g = Some a ->
       exists alleles, (g, alleles) ∈ gene_pool (self s) /\ a ∈ alleles) /\
    no_duplicate_alleles d /\
    can_survive (genes parent) = true.
Proof.
  intros Hd0 Hdom0 E. unfold generate_random_parent in E.
  rewrite bind_gets in E. cbv beta zeta in E.
  set (pool := gene_pool (self s)) in *.
  set (I := fun (p : Evolvable A) (s1 : state A) =>
    self s1 = self s /\
    exists d, genes p = Dict d /\ forall g, is_Some (d !! g) -> g ∈ keys pool).
  set (Q := fun (p : Evolvable A) (_ : state A) =>
    exists d, genes p = Dict d /\
      (forall g, g ∈ keys pool <-> is_Some (d !! g)) /\
      (forall g a, d !! g = Some a -> exists alleles, (g, alleles) ∈ pool /\ a ∈ alleles) /\
      no_duplicate_alleles d /\ can_survive (genes p) = true).
  while_inv E I Q; [|split; eauto|exact Hpost].
  clear E parent s' Hd0 Hdom0 d0.
  intros p s1 s2 r [Hself (d1 & Hd1 & Hdom1)] E.
  rewrite bind_gets in E. rewrite Hself in E. fold pool in E.
  apply bind_Ok in E as (s3 & p1 & Efold & E).
  set (J := fun (done : list (gene * list A)) (p : Evolvable A) (s1 : state A) =>
    self s1 = self s /\
    exists d, genes p = Dict d /\
      (forall g, is_Some (d !! g) -> g ∈ keys pool) /\
      (forall g, g ∈ done.*1 -> is_Some (d !! g)) /\
      (forall g a, g ∈ done.*1 -> d !! g = Some a ->
         exists alleles, (g, alleles) ∈ pool /\ a ∈ alleles) /\
      (forall g1 g2 a, g1 ∈ done.*1 -> d !! g1 = Some a -> d !! g2 = Some a ->
         g1 = g2)).
  fold_inv Efold J.
  - clear. intros done p [gene allele] Hin s1 s2 p'
      (Hself & d & Hd & Hdom & Hall & Hfrom & Hinj) E.
    set (Q' := fun (p' : Evolvable A) (s1 : state A) =>
      self s1 = self s /\ exists a, a ∈ allele /\
        (forall g, d !! g <> Some a) /\
        p' = Candidate (Dict (<[gene := a]> d)) (cache_attrs p)).
    while_inv E (fun (_ : unit) (s1 : state A) => self s1 = self s) Q'; [|done|].
    { clear s1 s2 Hself p' E. intros [] s1 s2 r Hself E.
      apply bind_Ok in E as (s3 & a & Ec & E).
      apply random_choice_Ok in Ec as (Ha & Hs3 & _).
      rewrite Hd in E. cbn [genes_values genes_setitem] in E.
      rewrite bind_Ok_eq in E. case_decide as Hv.
      - injection E as <- <-. congruence.
      - rewrite bind_Ok_eq in E. injection E as <- <-.
        split; [congruence|]. exists a. split; [done|]. split; [|done].
        intros g Hg. apply Hv, elem_of_values. eauto. }
    destruct Hpost as (Hs2 & a & Ha & Hfresh & ->).
    split; [done|]. exists (<[gene := a]> d). split; [done|].
    assert (gene ∈ keys pool) as Hgene.
    { unfold keys. apply list_elem_of_fmap. by exists (gene, allele). }
    repeat split.
    + intros g. rewrite lookup_insert_is_Some. intros [<-|[_ Hg]]; auto.
    + intros g. rewrite fmap_app, elem_of_app, lookup_insert_is_Some.
      cbn. rewrite list_elem_of_singleton.
      destruct (decide (gene = g)); [by left|]. intros [Hg|Hg]; [|done].
      right. split; auto.
    + intros g v. rewrite fmap_app, elem_of_app, lookup_insert_Some.
      cbn. rewrite list_elem_of_singleton.
      intros Hg [[<- <-]|[Hne Hv]]; [by exists allele|].
      destruct Hg as [Hg|Hg]; [by eapply Hfrom|done].
    + intros g1 g2 v. rewrite fmap_app, elem_of_app, !lookup_insert_Some.
      cbn. rewrite list_elem_of_singleton.
      intros Hg [[<- <-]|[Hne1 E1]] [[<- E2]|[Hne2 E2]]; try done.
      * subst. by destruct (Hfresh g2).
      * subst. by destruct (Hfresh g1).
      * destruct Hg as [Hg|Hg]; [by eapply Hinj|done].
  - split; [done|]. exists d1. split; [done|]. split; [done|].
    cbn. repeat split; intros *; by rewrite ?elem_of_nil.
  - destruct Hpost as (Hself3 & d & Hd & Hdom & Hall & Hfrom & Hinj).
    cbn [app] in *.
    destruct (can_survive (genes p1)) eqn:Hsurv; injection E as <- <-.
    + exists d. split; [done|]. split; [|split; [|split]].
      * intros g. split; [apply Hall|apply Hdom].
      * intros g a Hg. eapply Hfrom; [|done]. apply Hdom. by eexists.
      * intros g1 g2 a Hg1 Hg2. eapply Hinj; [|done..]. apply Hdom. by eexists.
      * cbn. done.
    + split; [done|]. exists d. by split.
Qed.

(** *** [set_best] *)

Local Abbreviation key v := (unique (genes v)).
Local Abbreviation fit v := (fitness_level (genes v)).

(** The loop of [set_best] appends, to what it has built, the first
    candidate of every key it has not seen. *)
Lemma keep_first_spec (values : list (Evolvable A)) :
  forall (seen : gset K) (acc : list (Evolvable A)),
  exists kept,
    (foldl (keep_first unique) (seen, acc) values).2 = acc ++ kept /\
    NoDup ((fun v => key v) <$> kept) /\
    (forall v, v ∈ kept -> key v ∉ seen) /\
    (forall v, v ∈ kept -> first_occurrence unique values v).
Proof.
  induction values as [|v vs IH]; intros seen acc; simpl.
  - exists []. rewrite app_nil_r. repeat split; try done.
    + constructor.
    + intros v Hv. by apply elem_of_nil in Hv.
    + intros v Hv. by apply elem_of_nil in Hv.
  - unfold keep_first at 2. cbn [fst snd]. case_decide as Hseen.
    + destruct (IH seen acc) as (kept & -> & Hnd & Hnew & Hfirst).
      exists kept. repeat split; try done.
      intros u Hu. destruct (Hfirst u Hu) as (i & Hi & Hbefore).
      exists (Datatypes.S i). split; [done|].
      intros [|j] w Hj Hw; cbn in Hw.
      * injection Hw as <-. intros Heq. apply (Hnew u Hu). by rewrite <- Heq.
      * eapply Hbefore; [|done]. lia.
    + destruct (IH ({[key v]} ∪ seen) (acc ++ [v])) as (kept & -> & Hnd & Hnew & Hfirst).
      exists (v :: kept). rewrite <- app_assoc. repeat split; try done.
      * cbn. apply NoDup_cons. split; [|done].
        rewrite list_elem_of_fmap. intros (u & Hk & Hu).
        apply (Hnew u Hu). rewrite <- Hk. set_solver.
      * intros u [->|Hu]%elem_of_cons; [done|].
        specialize (Hnew u Hu). set_solver.
      * intros u [->|Hu]%elem_of_cons.
        { exists 0. split; [done|]. intros j w Hj. lia. }
        destruct (Hfirst u Hu) as (i & Hi & Hbefore).
        exists (Datatypes.S i). split; [done|].
        intros [|j] w Hj Hw; cbn in Hw.
        -- injection Hw as <-. specialize (Hnew u Hu). set_solver.
        -- eapply Hbefore; [|done]. lia.
Qed.

Lemma insert_desc_perm v (l : list (Evolvable A)) :
  insert_desc fitness_level v l ≡ₚ v :: l.
Proof.
  induction l as [|y l IH]; simpl; [done|].
  destruct (Qle_bool _ _); [done|]. rewrite IH. apply perm_swap.
Qed.

Lemma sorted_desc_perm (l : list (Evolvable A)) :
  sorted_desc fitness_level l ≡ₚ l.
Proof.
  induction l as [|x l IH]; simpl; [done|].
  rewrite insert_desc_perm. by rewrite IH.
Qed.

Lemma insert_desc_descending v (l : list (Evolvable A)) :
  descending fitness_level l ->
  descending fitness_level (insert_desc fitness_level v l).
Proof.
  unfold descending. induction l as [|y l IH]; intros Hl; simpl.
  - repeat constructor.
  - apply StronglySorted_inv in Hl as [Hl Hy].
    destruct (Qle_bool (fit y) (fit v)) eqn:Hle.
    + apply Qle_bool_iff in Hle. constructor.
      * by constructor.
      * constructor; [done|]. eapply Forall_impl; [exact Hy|].
        intros z Hz. cbv beta in Hz. by eapply Qle_trans.
    + assert (fit v <= fit y)%Q as Hvy.
      { apply Qlt_le_weak, Qnot_le_lt. intros Hc.
        apply Qle_bool_iff in Hc. congruence. }
      constructor; [by apply IH|].
      rewrite insert_desc_perm. by constructor.
Qed.

Lemma sorted_desc_descending (l : list (Evolvable A)) :
  descending fitness_level (sorted_desc fitness_level l).
Proof.
  induction l as [|x l IH]; simpl.
  - constructor.
  - by apply insert_desc_descending.
Qed.

(** A slice [l[:n]] is a prefix of [l]. *)
Lemma slice_to_take {X} (l : list X) n : exists k, slice_to l n = take k l.
Proof. unfold slice_to. destruct (0 <=? n)%Z; eauto. Qed.

Lemma descending_take k (l : list (Evolvable A)) :
  descending fitness_level l -> descending fitness_level (take k l).
Proof.
  unfold descending. intros Hl. rewrite <- (take_drop k l) in Hl.
  by apply StronglySorted_app_1_l in Hl.
Qed.

Lemma new_best_spec (b p : list (Evolvable A)) n_best :
  let archive := new_best fitness_level unique b p n_best in
  ((0 <= n_best)%Z -> (Z.of_nat (length archive) <= n_best)%Z) /\
  descending fitness_level archive /\
  unique_keys unique archive /\
  (forall v, v ∈ archive -> first_occurrence unique (b ++ p) v).
Proof.
  intros archive. subst archive. unfold new_best.
  destruct (keep_first_spec (b ++ p) ∅ []) as (kept & -> & Hnd & _ & Hfirst).
  cbn [app]. split; [|split; [|split]].
  - intros Hn. unfold slice_to. rewrite (proj2 (Z.leb_le 0 n_best) Hn).
    rewrite length_take. lia.
  - destruct (slice_to_take (sorted_desc fitness_level kept) n_best) as [k ->].
    apply descending_take, sorted_desc_descending.
  - destruct (slice_to_take (sorted_desc fitness_level kept) n_best) as [k ->].
    unfold unique_keys. rewrite fmap_take.
    eapply sublist_NoDup; [|apply sublist_take].
    by rewrite sorted_desc_perm.
  - destruct (slice_to_take (sorted_desc fitness_level kept) n_best) as [k ->].
    intros v Hv. apply Hfirst.
    apply subseteq_take in Hv. by rewrite sorted_desc_perm in Hv.
Qed.

(** C3, amended.  After [set_best(n_best)] with [n_best >= 0], for any
    archive and population: the archive has at most [n_best] entries, its
    fitness values never increase along it (two entries with different keys
    may have the same fitness), no two entries share a uniqueness key, and
    every entry is the first candidate with its key in the old archive
    followed by the population. *)
Theorem set_best_archive_invariant s n_best :
  (0 <= n_best)%Z ->
  exists s',
    set_best fitness_level unique n_best s = (s', Ok tt) /\
    (Z.of_nat (length (best (self s'))) <= n_best)%Z /\
    descending fitness_level (best (self s')) /\
    unique_keys unique (best (self s')) /\
    (forall v, v ∈ best (self s') ->
       first_occurrence unique (best (self s) ++ population (self s)) v) /\
    population (self s') = population (self s).
Proof.
  intros Hn. eexists. split; [reflexivity|]. cbn.
  destruct (new_best_spec (best (self s)) (population (self s)) n_best)
    as (Hlen & Hdesc & Huniq & Hfirst).
  auto.
Qed.

(** *** [run] *)

Lemma draw_keeps (e : engine A) (w : GenePool.world A) : preserves (kept e w) draw.
Proof.
  intros s Hs. unfold draw, next_draw. by destruct (tape s).
Qed.

Lemma random_choice_keeps {X} (e : engine A) (w : GenePool.world A) (l : list X) :
  preserves (kept e w) (random_choice l).
Proof.
  unfold random_choice. apply preserves_bind; [apply draw_keeps|].
  intros r. destruct (l !! _); [apply preserves_ret|apply preserves_raise].
Qed.

Lemma generate_random_parent_keeps (e : engine A) (w : GenePool.world A) fuel :
  preserves (kept e w) (generate_random_parent evolvable_class can_survive fuel).
Proof.
  unfold generate_random_parent.
  apply preserves_bind; [apply preserves_gets|]. intros pool.
  apply preserves_while_true. intros p.
  apply preserves_bind; [apply preserves_gets|]. intros pool'.
  apply preserves_bind.
  - apply preserves_fold_each. intros p' [gene allele].
    apply preserves_while_true. intros [].
    apply preserves_bind; [apply random_choice_keeps|]. intros a.
    apply preserves_bind; [apply preserves_from_outcome|]. intros values.
    case_decide; [apply preserves_ret|].
    apply preserves_bind; [apply preserves_from_outcome|]. intros g.
    apply preserves_ret.
  - intros p'. destruct (can_survive _); apply preserves_ret.
Qed.

(** C9.  [run] with a callback and [cb_every] equal to 0, or left at
    [None], raises [ValueError] at once: whatever the other arguments, the
    outcome is the exception and the state is the one [run] was called
    in, population and archive included. *)
Theorem run_rejects_falsy_cb_every fuel n n_best n_children
    (cb : Z -> M (state A) unit) s :
  run evolvable_class can_survive fitness_level unique allele_add
      fuel n n_best n_children (Some 0%Z) (Some cb) s = (s, Raise ValueError) /\
  run evolvable_class can_survive fitness_level unique allele_add
      fuel n n_best n_children None (Some cb) s = (s, Raise ValueError).
Proof. split; reflexivity. Qed.



(** *** [cross_over] *)

Lemma getslice_never_returns (w : GenePool.world A) a i j w' r :
  list_backed w -> __getslice__ a i j w <> (w', Ok r).
Proof.
  intros Hw E. destruct (heap w !! a) as [o|] eqn:Ho.
  - destruct (GenePoolFacts.getslice_list_backed w a o i j Ho (Hw a o Ho)) as [e He].
    congruence.
  - unfold __getslice__, __gene_selector, alleles_indexes in E.
    rewrite !bind_bind in E. unfold bind in E.
    rewrite (GenePoolFacts.load_None _ _ Ho) in E. discriminate.
Qed.

Lemma list_getitem_nil {X} i : list_getitem (@nil X) i = Raise IndexError.
Proof. unfold list_getitem. cbn. by repeat case_match. Qed.

(** With list-backed positions, no call of [cross_over] returns a child:
    every attempt stops at the range query on the first parent, or, without
    parents, at the choice of one. *)
Lemma cross_over_never_returns fuel parents s s' child :
  list_backed (world s) ->
  cross_over evolvable_class can_survive allele_add fuel parents s <> (s', Ok child).
Proof.
  intros Hw E. unfold cross_over in E.
  while_inv E (fun (_ : unit) (s1 : state A) => world s1 = world s)
    (fun (_ : Evolvable A) (_ : state A) => False); [|done|done].
  clear E s' child. intros [] s1 s2 r Hworld E. exfalso.
  apply bind_Ok in E as (s3 & gene_range & Er & E).
  assert (world s3 = world s) as Hw3.
  { unfold random_random_pair in Er.
    apply bind_Ok in Er as (t1 & r0 & E0 & Er).
    apply bind_Ok in Er as (t2 & r1 & E1 & Er).
    apply draw_Ok in E0 as [_ H0]. apply draw_Ok in E1 as [_ H1].
    injection Er as <- _. congruence. }
  destruct parents as [|parent parents].
  - cbn [comprehension] in E. rewrite !bind_ret in E.
    apply bind_Ok in E as (s4 & idx & _ & E).
    rewrite list_getitem_nil in E. discriminate.
  - cbn [comprehension] in E. rewrite !bind_bind in E.
    apply bind_Ok in E as (s4 & sl & Eg & _).
    destruct (genes parent) as [d|a]; [discriminate|].
    unfold genes_getslice, lift in Eg.
    destruct (__getslice__ a _ _ (world s3)) as [w4 [x| |]] eqn:Esl;
      try discriminate.
    eapply getslice_never_returns; [|exact Esl]. by rewrite Hw3.
Qed.

(** *** [mutate] *)

(** What holds of every call that returns: the swap count lies between [n1]
    and [n2], every swap writes one gene, with an allele that no gene holds,
    so that the genes outside the written ones keep their entries and a
    mapping without duplicate alleles stays without.  Two swaps may write
    the same gene. *)
Lemma mutate_spec fuel c n1 n2 s s' c' d :
  genes c = Dict d -> no_duplicate_alleles d ->
  mutate fuel c n1 n2 s = (s', Ok c') ->
  exists d' (written : list gene) (swap : Z),
    genes c' = Dict d' /\ no_duplicate_alleles d' /\
    (n1 <= swap <= n2)%Z /\ length written = Z.to_nat swap /\
    (forall g, g ∉ written -> d' !! g = d !! g).
Proof.
  intros Hd Hnd E. unfold mutate in E.
  apply bind_Ok in E as (s1 & swap & Hswap & E).
  apply random_randint_Ok in Hswap as [Hswap _].
  set (J := fun (done : list Z) (c : Evolvable A) (_ : state A) =>
    exists d' (written : list gene),
      genes c = Dict d' /\ no_duplicate_alleles d' /\
      length written = length done /\
      (forall g, g ∉ written -> d' !! g = d !! g)).
  fold_inv E J.
  - clear. intros done c0 y Hy u1 u2 c1 (d1 & written & Hd1 & Hnd1 & Hlen & Hsame) E.
    while_inv E (fun (_ : unit) (_ : state A) => True)
      (fun (c' : Evolvable A) (_ : state A) => J (done ++ [y]) c' u2);
      [|done|exact Hpost].
    clear E. intros [] t1 t2 r _ E.
    rewrite bind_gets in E.
    apply bind_Ok in E as (t3 & random_gene & _ & E).
    apply bind_Ok in E as (t4 & alleles & _ & E).
    apply bind_Ok in E as (t5 & random_allele & _ & E).
    rewrite Hd1 in E. cbn [genes_values genes_setitem] in E.
    rewrite bind_Ok_eq in E. case_decide as Hv.
    + by injection E as <- <-.
    + rewrite bind_Ok_eq in E. injection E as <- <-.
      exists (<[random_gene := random_allele]> d1), (random_gene :: written).
      split; [done|]. split; [|split].
      * apply no_duplicate_insert; [done|].
        intros g Hg. apply Hv, elem_of_values. eauto.
      * rewrite length_app. cbn. lia.
      * intros g Hg. apply not_elem_of_cons in Hg as [Hne Hg].
        rewrite lookup_insert_ne by done. by apply Hsame.
  - exists d, []. repeat split; try done.
  - destruct Hpost as (d' & written & Hd' & Hnd' & Hlen & Hsame).
    exists d', written, swap. repeat split; try done; try lia.
    cbn [app] in Hlen. rewrite Hlen. unfold range.
    by rewrite length_fmap, length_seq.
Qed.

End facts.

Import Examples.

(** C1.  [cross_over] on two parents whose genes are allele indexes stops in
    its first attempt with [TypeError], at the range query on the first
    parent, after the two draws of the position range; on two parents whose
    genes are dictionaries it stops at the same place.  No child is built,
    mutated or tested. *)
Theorem cross_over_raises_type_error :
  cross_over empty_candidate always_survives Z.add 5 two_parents
      (two_parents_state [1; 0; 1; 0; 0])
    = (two_parents_state [1; 0; 0], Raise TypeError)
  /\ cross_over empty_candidate always_survives Z.add 5 [with_g 1; with_g 2]
      (one_gene_state [1; 2]%Z [with_g 1; with_g 2] [] [1; 0; 1; 0; 0])
    = (one_gene_state [1; 2]%Z [with_g 1; with_g 2] [] [1; 0; 0], Raise TypeError).
Proof. split; reflexivity. Qed.

(** C2 on the gene pool of colors and sizes. *)
Lemma generate_random_parent_spec_witness :
  exists d,
    genes (Candidate (Dict {["color" := "red"; "size" := "large"]}) true) = Dict d /\
    (forall g, g ∈ keys colors_and_sizes <-> is_Some (d !! g)) /\
    (forall g a, d !! g = Some a ->
       exists alleles, (g, alleles) ∈ colors_and_sizes /\ a ∈ alleles) /\
    no_duplicate_alleles d /\
    always_survives (genes (Candidate (Dict {["color" := "red"; "size" := "large"]}) true))
      = true.
Proof.
  apply (generate_random_parent_spec empty_candidate always_survives 3
           (colors_state [0; 1]) (colors_state [])
           (Candidate (Dict {["color" := "red"; "size" := "large"]}) true) ∅).
  - reflexivity.
  - intros g [a Ha]. rewrite lookup_empty in Ha. discriminate.
  - vm_compute. reflexivity.
Defined.

(** C3 as the specification states it fails: two candidates with different
    keys and the same fitness are both kept, in an order that is not strict;
    and with the bound -1 three candidates leave an archive of two. *)
Lemma set_best_not_strict :
  ~ archive_invariant_strict flat_fitness allele_of_g 5
      (best (self (set_best flat_fitness allele_of_g 5
                     (one_gene_state [1; 2]%Z [with_g 1; with_g 2] [] [])).1))
  /\ ~ archive_invariant_strict allele_fitness allele_of_g (-1)
      (best (self (set_best allele_fitness allele_of_g (-1)
                     (one_gene_state [1; 2; 3]%Z [with_g 1; with_g 2; with_g 3] [] [])).1)).
Proof.
  split.
  - intros (_ & Hs & _).
    assert (best (self (set_best flat_fitness allele_of_g 5
                     (one_gene_state [1; 2]%Z [with_g 1; with_g 2] [] [])).1)
            = [with_g 1; with_g 2]) as Hb by (vm_compute; reflexivity).
    rewrite Hb in Hs. unfold strictly_descending in Hs.
    apply StronglySorted_inv in Hs as [_ Hf].
    apply Forall_cons in Hf as [Hlt _]. vm_compute in Hlt. discriminate.
  - intros (Hl & _). vm_compute in Hl. by apply Hl.
Qed.

(** C3, amended, on an archive of one candidate and a population of two,
    with the bound 2. *)
Lemma set_best_archive_invariant_witness :
  exists s',
    set_best allele_fitness allele_of_g 2
      (one_gene_state [1; 2; 3]%Z [with_g 1; with_g 3] [with_g 2] []) = (s', Ok tt) /\
    (Z.of_nat (length (best (self s'))) <= 2)%Z /\
    descending allele_fitness (best (self s')) /\
    unique_keys allele_of_g (best (self s')) /\
    (forall v, v ∈ best (self s') ->
       first_occurrence allele_of_g ([with_g 2] ++ [with_g 1; with_g 3]) v) /\
    population (self s') = [with_g 1; with_g 3].
Proof.
  apply (set_best_archive_invariant allele_fitness allele_of_g
           (one_gene_state [1; 2; 3]%Z [with_g 1; with_g 3] [with_g 2] []) 2).
  lia.
Defined.

(** C5.  [mutate(c, 1, 2)] on the candidate with allele 1 for its one gene,
    the gene having the alleles 1 and 2: with a swap count of 2 the first
    swap writes 2, the second writes 1 again, and the call returns the
    candidate as it was.  None of its entries differs from before. *)
Theorem mutate_can_restore_candidate :
  mutate 5 (with_g 1) 1 2 (one_gene_state [1; 2]%Z [] [] [1; 0; 1; 0; 0])
    = (one_gene_state [1; 2]%Z [] [] [], Ok (with_g 1))
  /\ changed_entries ({["g" := 1%Z]} : gmap gene Z) {["g" := 1%Z]} = 0.
Proof. split; vm_compute; reflexivity. Qed.


End EvolveFacts.

(** * Further properties *)

Lemma preserves_Ok {S X} (P : S -> Prop) (m : M S X) s s' x :
  preserves P m -> P s -> m s = (s', Ok x) -> P s'.
Proof. intros Hm Hs E. specialize (Hm s Hs). by rewrite E in Hm. Qed.

(** ** More on the allele index *)

Module GenePoolMore.
Import GenePool GenePoolFacts Predicates MoreExamples.

Section more.
Context {A : Type} `{!Dtype A}.
Implicit Types (w : world A) (o : t A) (self : addr).

Ltac mrun Ho := repeat first [ rewrite (bind_load _ _ _ _ Ho) | mstep ].

Lemma float_of_draw_range r : (0 <= float_of_draw r)%Q /\ (float_of_draw r < 1)%Q.
Proof.
  unfold float_of_draw, Qle, Qlt. cbn [Qnum Qden].
  pose proof (Z.mod_pos_bound (Z.of_nat r) (2 ^ 53) ltac:(lia)) as Hb.
  change (Z.pos (2 ^ 53)) with (2 ^ 53)%Z. lia.
Qed.

Lemma bind_next_draw {S Y} (get : S -> list nat) set (k : nat -> M S Y) s r tape :
  get s = r :: tape -> bind (next_draw get set) k s = k r (set tape s).
Proof. intros E. unfold bind, next_draw. by rewrite E. Qed.

Lemma add_allele_draw w self xs ys allele r tape :
  heap w !! self = Some (Build (Seq PyList xs) (Seq PyList ys)) ->
  rng w = r :: tape ->
  add_allele self allele None w
    = (World (<[self := Build (Seq PyList (xs ++ [allele]))
                            (Seq PyList (ys ++ [float_of_draw r]))]> (heap w)) tape,
       Ok tt).
Proof.
  intros Ho Hr. pose proof (lookup_lt_Some _ _ _ Ho) as Hlt.
  unfold add_allele. mrun Ho. cbn [append kind items __alleles __alleles_indexes].
  unfold store at 1. mrun Ho.
  unfold np_random_random. mrun Ho.
  rewrite (bind_next_draw _ _ _ _ r tape) by exact Hr. mrun Ho.
  erewrite bind_load; [|cbn [heap]; by apply list_lookup_insert_eq].
  cbn [append kind items __alleles __alleles_indexes]. mrun Ho.
  unfold store, modify. cbn [heap rng].
  by rewrite list_insert_insert_eq.
Qed.

Lemma init_loop_draw (als : list A) : forall w self xs ys,
  heap w !! self = Some (Build (Seq PyList xs) (Seq PyList ys)) ->
  length als <= length (rng w) ->
  for_each (zip als (replicate (length als) None))
      (fun '(allele, index) => add_allele self allele index) w
    = (World (<[self := Build (Seq PyList (xs ++ als))
                   (Seq PyList (ys ++ (float_of_draw <$> take (length als) (rng w))))]>
                (heap w)) (drop (length als) (rng w)), Ok tt).
Proof.
  induction als as [|a als IH]; intros w self xs ys Ho Hlen.
  - cbn. rewrite !app_nil_r, list_insert_id by done. by destruct w.
  - pose proof (lookup_lt_Some _ _ _ Ho) as Hlt.
    destruct (rng w) as [|r tape] eqn:Hr; [cbn in Hlen; lia|].
    cbn [length replicate zip zip_with for_each]. unfold bind at 1.
    rewrite (add_allele_draw _ _ _ _ _ _ _ Ho Hr).
    erewrite IH; [|cbn [heap]; by apply list_lookup_insert_eq|cbn in *; lia].
    cbn [heap rng take drop fmap list_fmap].
    by rewrite list_insert_insert_eq, <- !app_assoc.
Qed.

Lemma init_Some_spec w (als : list A) (idx : list Q) :
  __init__ (Some als) (Some (Some <$> idx)) w
    = (World (heap w ++ [Build (Seq PyList (zip als idx).*1) (Seq PyList (zip als idx).*2)])
         (rng w), Ok (length (heap w))).
Proof.
  unfold __init__. rewrite zip_some.
  unfold bind at 1. unfold alloc at 1. unfold bind.
  erewrite init_loop; [|cbn [heap]; by apply list_lookup_middle].
  unfold ret. cbn [heap rng app]. f_equal. f_equal.
  replace (length (heap w)) with (length (heap w) + 0) by lia.
  by rewrite insert_app_r.
Qed.

(** X1.  [gene_pool(alleles, indexes)] with explicit positions allocates a
    new instance holding the pairs of [zip(alleles, indexes)] in two Python
    lists of the same length, the shorter argument deciding: alleles without
    a position, and positions without an allele, are dropped silently.  The
    other instances and the random source are untouched. *)
Theorem init_pairs_alleles_with_positions w (als : list A) (idx : list Q) :
  exists o,
    __init__ (Some als) (Some (Some <$> idx)) w
      = (World (heap w ++ [o]) (rng w), Ok (length (heap w))) /\
    content o = zip als idx /\
    kind (__alleles o) = PyList /\ kind (__alleles_indexes o) = PyList /\
    length (items (__alleles o)) = length als `min` length idx /\
    length (items (__alleles_indexes o)) = length als `min` length idx.
Proof.
  eexists. split; [apply init_Some_spec|].
  split; [apply content_zip|]. split; [done|]. split; [done|].
  cbn [items __alleles __alleles_indexes].
  by rewrite !length_fmap, length_zip.
Qed.

(** X2.  [gene_pool(alleles)] without positions keeps every allele, in
    order, and takes one draw of the random source for each: the positions
    are the floats of the first [len(alleles)] draws, all in [0, 1). *)
Theorem init_draws_positions w (als : list A) :
  length als <= length (rng w) ->
  exists o,
    __init__ (Some als) None w
      = (World (heap w ++ [o]) (drop (length als) (rng w)), Ok (length (heap w))) /\
    __alleles o = Seq PyList als /\
    __alleles_indexes o = Seq PyList (float_of_draw <$> take (length als) (rng w)) /\
    Forall (fun p => (0 <= p)%Q /\ (p < 1)%Q) (items (__alleles_indexes o)).
Proof.
  intros Hlen.
  exists (Build (Seq PyList als)
            (Seq PyList (float_of_draw <$> take (length als) (rng w)))).
  split; [|split; [reflexivity|split; [reflexivity|]]].
  - unfold __init__. unfold bind at 1. unfold alloc at 1. unfold bind.
    erewrite init_loop_draw; [|cbn [heap]; by apply list_lookup_middle|done].
    unfold ret. cbn [heap rng app]. f_equal. f_equal.
    replace (length (heap w)) with (length (heap w) + 0) by lia.
    by rewrite insert_app_r.
  - cbn [items __alleles_indexes]. apply Forall_fmap, Forall_forall.
    intros r _. apply float_of_draw_range.
Qed.

Lemma compress_nil_r {X} (m : list bool) : compress m (@nil X) = [].
Proof. by destruct m as [|[] m]. Qed.

Lemma compress_zip {X Y} (m : list bool) (xs : list X) (ys : list Y) :
  zip (compress m xs) (compress m ys) = compress m (zip xs ys).
Proof.
  revert xs ys. induction m as [|b m IH]; intros [|x xs] [|y ys]; cbn; try done.
  - destruct b; cbn; by rewrite ?zip_with_nil_r.
  - destruct b; cbn; by rewrite IH.
Qed.

Lemma compress_filter {X} (f : Q -> bool) (l : list (X * Q)) :
  compress (f <$> l.*2) l = filter (fun e => f e.2) l.
Proof.
  induction l as [|[x p] l IH]; cbn; [done|].
  rewrite IH. cbn. by destruct (f p) eqn:Hf; rewrite ?filter_cons_True, ?filter_cons_False
    by (cbn; rewrite Hf; naive_solver).
Qed.

Lemma compress_app {X} (m1 m2 : list bool) (l1 l2 : list X) :
  length m1 = length l1 ->
  compress (m1 ++ m2) (l1 ++ l2) = compress m1 l1 ++ compress m2 l2.
Proof.
  revert l1. induction m1 as [|b m1 IH]; intros [|x l1] Hlen; cbn in *; try done.
  destruct b; cbn; rewrite IH by lia; done.
Qed.

Lemma compress_length_le {X} (m : list bool) (l : list X) :
  length (compress m l) <= length l.
Proof.
  revert l. induction m as [|b m IH]; intros [|x l]; cbn; try lia.
  specialize (IH l). destruct b; cbn; lia.
Qed.

Lemma compress_length_lt {X} (m : list bool) (l : list X) :
  length m = length l -> false ∈ m -> length (compress m l) < length l.
Proof.
  revert l. induction m as [|b m IH]; intros [|x l] Hlen Hin; cbn in *; try done.
  - by apply elem_of_nil in Hin.
  - apply elem_of_cons in Hin as [<-|Hin].
    + pose proof (compress_length_le m l). lia.
    + specialize (IH l ltac:(lia) Hin). destruct b; cbn; lia.
Qed.

Lemma compress_length_eq {X Y} (m : list bool) (xs : list X) (ys : list Y) :
  length xs = length ys -> length (compress m xs) = length (compress m ys).
Proof.
  revert xs ys. induction m as [|b m IH]; intros [|x xs] [|y ys] Hlen; cbn in *; try done.
  destruct b; cbn; rewrite (IH xs ys) by lia; done.
Qed.

Lemma outside_mask (start stop : Q) (ps : list Q) :
  negb <$> in_range start stop ps = outside_range start stop <$> ps.
Proof. unfold in_range. by rewrite <- list_fmap_compose. Qed.

(** X3.  On an instance with as many alleles as positions,
    [get_genes_outside_range(start, stop)] returns two arrays of the same
    length that pair up as the entries with a position outside the range,
    in their original order, with the alleles as [np.array] holds them: the
    entries of the instance themselves when the array holds its alleles as
    they are.  The heap is left as it was. *)
Theorem outside_range_is_filter w self o start stop :
  heap w !! self = Some o ->
  length (items (__alleles o)) = length (items (__alleles_indexes o)) ->
  exists a' i',
    get_genes_outside_range self start stop w
      = (w, Ok (Seq NdArray a', Seq NdArray i')) /\
    zip a' i'
      = filter (fun e => outside_range start stop e.2)
          (zip (items (np_array (__alleles o))) (items (__alleles_indexes o))) /\
    (np_exact (__alleles o) ->
       zip a' i' = filter (fun e => outside_range start stop e.2) (content o)) /\
    length a' = length i'.
Proof.
  intros Ho Hlen. eexists _, _.
  split; [by apply outside_range_aligned|].
  assert (zip (compress (negb <$> in_range start stop (items (__alleles_indexes o)))
                 (items (np_array (__alleles o))))
              (compress (negb <$> in_range start stop (items (__alleles_indexes o)))
                 (items (__alleles_indexes o)))
          = filter (fun e => outside_range start stop e.2)
              (zip (items (np_array (__alleles o))) (items (__alleles_indexes o)))) as Hzip.
  { rewrite compress_zip, outside_mask.
    rewrite <- (compress_filter (outside_range start stop)).
    by rewrite snd_zip by (rewrite np_array_length; lia). }
  split; [done|]. split.
  - intros Hex. rewrite Hzip. unfold content. by rewrite Hex.
  - apply compress_length_eq. by rewrite np_array_length.
Qed.

Lemma compress_all_true {X} (m : list bool) (l : list X) :
  length m = length l -> Forall (fun b => b = true) m -> compress m l = l.
Proof.
  revert l. induction m as [|b m IH]; intros [|x l] Hlen Hm; cbn in *; try done.
  apply Forall_cons in Hm as [-> Hm]. by rewrite IH by (lia || done).
Qed.

(** X4.  With the bounds in the wrong order ([stop < start]) no position is
    in the range: [get_genes_outside_range] returns the whole index, that
    is the array of the property [alleles] and the array of the property
    [alleles_indexes], which holds every position of the instance. *)
Theorem outside_range_of_reversed_bounds w self o start stop :
  heap w !! self = Some o ->
  length (items (__alleles o)) = length (items (__alleles_indexes o)) ->
  (stop < start)%Q ->
  exists a i,
    alleles self w = (w, Ok a) /\ alleles_indexes self w = (w, Ok i) /\
    get_genes_outside_range self start stop w = (w, Ok (a, i)) /\
    items i = items (__alleles_indexes o) /\
    (np_exact (__alleles o) -> items a = items (__alleles o)).
Proof.
  intros Ho Hlen Hlt.
  exists (np_array (__alleles o)), (Seq NdArray (items (__alleles_indexes o))).
  split; [unfold alleles; by mrun Ho|].
  split; [unfold alleles_indexes; mrun Ho; by rewrite np_array_floats|].
  split; [|split; [done|by intros Hex]].
  rewrite (outside_range_aligned _ _ _ _ _ Ho Hlen). cbv zeta.
  rewrite (np_array_eta (__alleles o)) at 2.
  assert (Forall (fun b => b = true)
            (negb <$> in_range start stop (items (__alleles_indexes o)))) as Hall.
  { rewrite outside_mask. apply Forall_fmap, Forall_forall. intros p _.
    unfold outside_range. cbn. apply negb_true_iff, andb_false_iff.
    destruct (Qle_bool start p) eqn:E1; [|by left]. right.
    apply Qle_bool_iff in E1. apply not_true_is_false. intros E2.
    apply Qle_bool_iff in E2. lra. }
  rewrite !compress_all_true; try done; unfold in_range;
    by rewrite !length_fmap, ?np_array_length.
Qed.

(** X5.  [add_allele(allele, index)] followed by
    [get_genes_outside_range(start, stop)] returns what the query returned
    before, followed by the new entry when its position is outside the
    range, provided [np.array] holds the alleles as they are, both without
    and with the new one (the array is made anew from the longer list, and
    one new allele can change the dtype of all).  The other instances are
    untouched. *)
Theorem outside_range_after_add_allele w self o allele index start stop :
  heap w !! self = Some o ->
  kind (__alleles o) = PyList -> kind (__alleles_indexes o) = PyList ->
  length (items (__alleles o)) = length (items (__alleles_indexes o)) ->
  np_exact (__alleles o) ->
  np_exact (Seq PyList (items (__alleles o) ++ [allele])) ->
  exists a0 i0 w',
    get_genes_outside_range self start stop w
      = (w, Ok (Seq NdArray a0, Seq NdArray i0)) /\
    (let* _ := add_allele self allele (Some index) in
     get_genes_outside_range self start stop) w
      = (w', Ok (Seq NdArray (a0 ++ if outside_range start stop index then [allele] else []),
                 Seq NdArray (i0 ++ if outside_range start stop index then [index] else []))) /\
    (forall b, b <> self -> heap w' !! b = heap w !! b).
Proof.
  intros Ho Hka Hki Hlen Hex Hex'.
  destruct o as [[ka xs] [ki ys]]. cbn [kind items __alleles __alleles_indexes] in *. subst.
  pose proof (lookup_lt_Some _ _ _ Ho) as Hlt.
  eexists _, _, _. split; [by apply outside_range_aligned|]. split.
  - unfold bind at 1. rewrite (add_allele_lists _ _ _ _ _ _ Ho).
    erewrite outside_range_aligned;
      [|cbn [heap]; by apply list_lookup_insert_eq|cbn; rewrite !length_app; cbn; lia].
    cbv zeta. cbn [items __alleles __alleles_indexes].
    unfold np_exact in Hex, Hex'. cbn [items] in Hex, Hex'. rewrite Hex, Hex'.
    f_equal. f_equal.
    unfold in_range. rewrite !fmap_app. cbn [fmap list_fmap].
    rewrite !compress_app by (by rewrite !length_fmap).
    fold (outside_range start stop index).
    f_equal; f_equal; f_equal; cbn; by destruct (outside_range start stop index).
  - intros b Hb. cbn [heap]. by rewrite list_lookup_insert_ne.
Qed.

(** X6.  After [remove_slice] the alleles are a numpy array, which has no
    [append]: [add_allele] on the instance raises [AttributeError] and
    changes nothing. *)
Theorem add_allele_after_remove_slice w self o start stop allele index :
  heap w !! self = Some o ->
  kind (__alleles_indexes o) = PyList ->
  length (items (__alleles o)) = length (items (__alleles_indexes o)) ->
  let w1 := (remove_slice self start stop w).1 in
  add_allele self allele index w1 = (w1, Raise AttributeError).
Proof.
  intros Ho Hk Hlen w1. subst w1.
  pose proof (lookup_lt_Some _ _ _ Ho) as Hlt.
  rewrite (remove_slice_list_backed _ _ _ _ _ Ho Hk Hlen). cbn [fst].
  unfold add_allele.
  erewrite bind_load; [|cbn [heap]; by apply list_lookup_insert_eq].
  cbn [append kind __alleles]. by rewrite bind_Raise_eq.
Qed.

Lemma getitem_mask_mismatch {X} (l : list X) mask :
  length (items mask) <> length l ->
  getitem_mask (Seq NdArray l) mask = Raise IndexError.
Proof. intros Hl. unfold getitem_mask. cbn [kind items]. by rewrite decide_False. Qed.

(** X7.  After a [remove_slice] whose range held at least one position, the
    instance has fewer alleles than positions: [n_allelles] reports the
    smaller number, [alleles_indexes] still returns every former position,
    and [get_genes_outside_range] raises [IndexError] for any bounds. *)
Theorem outside_range_after_remove_slice w self o start stop p start' stop' :
  heap w !! self = Some o ->
  kind (__alleles_indexes o) = PyList ->
  length (items (__alleles o)) = length (items (__alleles_indexes o)) ->
  p ∈ items (__alleles_indexes o) -> (start <= p)%Q -> (p <= stop)%Q ->
  let w1 := (remove_slice self start stop w).1 in
  get_genes_outside_range self start' stop' w1 = (w1, Raise IndexError) /\
  (exists n, n_allelles self w1 = (w1, Ok n) /\ n < length (items (__alleles_indexes o))) /\
  alleles_indexes self w1 = (w1, Ok (Seq NdArray (items (__alleles_indexes o)))).
Proof.
  intros Ho Hk Hlen Hp Hp1 Hp2 w1. subst w1.
  pose proof (lookup_lt_Some _ _ _ Ho) as Hlt.
  rewrite (remove_slice_list_backed _ _ _ _ _ Ho Hk Hlen). cbn [fst].
  set (mask := negb <$> in_range start stop (items (__alleles_indexes o))).
  set (o1 := Build (Seq NdArray (compress mask (items (np_array (__alleles o)))))
               (__alleles_indexes o)).
  set (w1 := World (<[self := o1]> (heap w)) (rng w)).
  assert (heap w1 !! self = Some o1) as Ho1 by (by apply list_lookup_insert_eq).
  assert (length (compress mask (items (np_array (__alleles o))))
          < length (items (__alleles_indexes o))) as Hshort.
  { rewrite <- Hlen, <- (np_array_length (__alleles o)). apply compress_length_lt.
    - subst mask. unfold in_range. by rewrite !length_fmap, np_array_length.
    - subst mask. rewrite outside_mask. apply list_elem_of_fmap. exists p.
      split; [|done]. unfold outside_range.
      apply Qle_bool_iff in Hp1, Hp2. by rewrite Hp1, Hp2. }
  split; [|split].
  - unfold get_genes_outside_range, __gene_selector, alleles, alleles_indexes.
    mrun Ho1. rewrite np_array_floats. subst o1. cbn [__alleles].
    rewrite np_array_of_array.
    rewrite getitem_mask_mismatch; [by rewrite bind_Raise_eq|].
    cbn [items logical_not __alleles_indexes]. unfold in_range.
    rewrite !length_fmap. lia.
  - eexists. split; [unfold n_allelles; by mrun Ho1|]. done.
  - unfold alleles_indexes. mrun Ho1. by rewrite np_array_floats.
Qed.

Lemma remove_slice_never_returns w self start stop w' :
  list_backed w -> remove_slice self start stop w <> (w', Ok tt).
Proof.
  intros Hw E. unfold remove_slice in E.
  apply bind_Ok in E as (w1 & sel & E1 & E). cbv zeta in E.
  assert (list_backed w1) as Hw1.
  { eapply preserves_Ok; [|exact Hw|exact E1].
    unfold __gene_selector, alleles_indexes.
    repeat first [apply preserves_load | apply preserves_ret
                 | apply preserves_bind | intro]. }
  apply bind_Ok in E as (w2 & a & E2 & E).
  assert (list_backed w2) as Hw2.
  { eapply preserves_Ok; [|exact Hw1|exact E2].
    unfold alleles.
    repeat first [apply preserves_load | apply preserves_ret
                 | apply preserves_bind | intro]. }
  apply bind_Ok in E as (w3 & a' & E3 & E).
  injection E3 as <- E3.
  apply bind_Ok in E as (w4 & o & E4 & E). apply load_Ok in E4 as [-> Ho].
  apply bind_Ok in E as (w5 & [] & E5 & E).
  assert (list_backed w5) as Hw5.
  { eapply preserves_Ok; [|exact Hw2|exact E5].
    apply store_list_backed. cbn. by eapply Hw2. }
  apply bind_Ok in E as (w6 & o1 & E6 & E). apply load_Ok in E6 as [-> Ho1].
  apply bind_Ok in E as (w7 & i' & E7 & _).
  rewrite (getitem_mask_list _ _ (Hw5 _ _ Ho1)) in E7. discriminate.
Qed.

(** X8.  In a heap where the positions of every instance are a Python list,
    they stay one: the constructor, [add_allele], [copy] and [remove_slice]
    all lead to such a heap again, and there neither [remove_slice] nor
    [__getslice__] returns. *)
Theorem positions_stay_python_lists w :
  list_backed w ->
  (forall alleles indexes, list_backed (__init__ alleles indexes w).1) /\
  (forall self allele index, list_backed (add_allele self allele index w).1) /\
  (forall self, list_backed (copy self w).1) /\
  (forall self start stop, list_backed (remove_slice self start stop w).1) /\
  (forall self start stop, (remove_slice self start stop w).2 <> Ok tt) /\
  (forall self i j r, (__getslice__ self i j w).2 <> Ok r).
Proof.
  intros Hw. repeat split.
  - intros. by apply init_list_backed.
  - intros. by apply add_allele_list_backed.
  - intros. by apply copy_list_backed.
  - intros. by apply remove_slice_keeps_list_backed.
  - intros self start stop E.
    destruct (remove_slice self start stop w) as [w' out] eqn:Er. cbn in E. subst.
    by eapply remove_slice_never_returns.
  - intros self i j r E.
    destruct (__getslice__ self i j w) as [w' out] eqn:Eg. cbn in E. subst.
    by eapply EvolveFacts.getslice_never_returns.
Qed.

End more.

Import Examples.

(** The heap with the one instance [gene_pool([7, 8], [0.25, 0.75])]. *)
Lemma init_draws_positions_witness :
  exists o,
    __init__ (Some [7; 8]%Z) None (World [] [3; 5])
      = (World ([] ++ [o]) (drop 2 [3; 5]), Ok 0) /\
    __alleles o = Seq PyList [7; 8]%Z /\
    __alleles_indexes o = Seq PyList (float_of_draw <$> take 2 [3; 5]) /\
    Forall (fun p => (0 <= p)%Q /\ (p < 1)%Q) (items (__alleles_indexes o)).
Proof.
  apply (init_draws_positions (World [] [3; 5]) [7; 8]%Z). cbn. lia.
Defined.

Lemma outside_range_is_filter_witness :
  exists a' i',
    get_genes_outside_range 0 0%Q (1 # 2)%Q one_index
      = (one_index, Ok (Seq NdArray a', Seq NdArray i')) /\
    zip a' i'
      = filter (fun e => outside_range 0 (1 # 2) e.2)
          (zip (items (np_array (__alleles seven_eight)))
               (items (__alleles_indexes seven_eight))) /\
    (np_exact (__alleles seven_eight) ->
       zip a' i' = filter (fun e => outside_range 0 (1 # 2) e.2) (content seven_eight)) /\
    length a' = length i'.
Proof.
  apply (outside_range_is_filter one_index 0 seven_eight); reflexivity.
Defined.

Lemma outside_range_of_reversed_bounds_witness :
  exists a i,
    alleles 0 one_index = (one_index, Ok a) /\
    alleles_indexes 0 one_index = (one_index, Ok i) /\
    get_genes_outside_range 0 1%Q 0%Q one_index = (one_index, Ok (a, i)) /\
    items i = items (__alleles_indexes seven_eight) /\
    (np_exact (__alleles seven_eight) -> items a = items (__alleles seven_eight)).
Proof.
  apply (outside_range_of_reversed_bounds one_index 0 seven_eight 1 0);
    [reflexivity|reflexivity|lra].
Defined.

Lemma outside_range_after_add_allele_witness :
  exists a0 i0 w',
    get_genes_outside_range 0 0%Q (1 # 2)%Q one_index
      = (one_index, Ok (Seq NdArray a0, Seq NdArray i0)) /\
    (let* _ := add_allele 0 9%Z (Some 1%Q) in
     get_genes_outside_range 0 0%Q (1 # 2)%Q) one_index
      = (w', Ok (Seq NdArray (a0 ++ if outside_range 0 (1 # 2) 1 then [9%Z] else []),
                 Seq NdArray (i0 ++ if outside_range 0 (1 # 2) 1 then [1%Q] else []))) /\
    (forall b, b <> 0 -> heap w' !! b = heap one_index !! b).
Proof.
  apply (outside_range_after_add_allele one_index 0 seven_eight 9%Z 1%Q 0%Q (1 # 2)%Q);
    reflexivity.
Defined.

Lemma add_allele_after_remove_slice_witness :
  let w1 := (remove_slice 0 0%Q (1 # 2)%Q one_index).1 in
  add_allele 0 9%Z (Some 1%Q) w1 = (w1, Raise AttributeError).
Proof.
  apply (add_allele_after_remove_slice one_index 0 seven_eight 0%Q (1 # 2)%Q 9%Z
           (Some 1%Q)); reflexivity.
Defined.

Lemma outside_range_after_remove_slice_witness :
  let w1 := (remove_slice 0 0%Q (1 # 2)%Q one_index).1 in
  get_genes_outside_range 0 2%Q 3%Q w1 = (w1, Raise IndexError) /\
  (exists n, n_allelles 0 w1 = (w1, Ok n) /\ n < 2) /\
  alleles_indexes 0 w1 = (w1, Ok (Seq NdArray [(1 # 4)%Q; (3 # 4)%Q])).
Proof.
  apply (outside_range_after_remove_slice one_index 0 seven_eight 0%Q (1 # 2)%Q
           (1 # 4)%Q 2%Q 3%Q); [reflexivity|reflexivity|reflexivity| |lra|lra].
  cbn. apply list_elem_of_here.
Defined.

Lemma positions_stay_python_lists_witness :
  (forall alleles indexes, list_backed (__init__ alleles indexes one_index).1) /\
  (forall self allele index, list_backed (add_allele self allele index one_index).1) /\
  (forall self, list_backed (copy self one_index).1) /\
  (forall self start stop, list_backed (remove_slice self start stop one_index).1) /\
  (forall self start stop, (remove_slice self start stop one_index).2 <> Ok tt) /\
  (forall self i j r, (__getslice__ self i j one_index).2 <> Ok r).
Proof.
  apply (positions_stay_python_lists one_index).
  intros a o Ha. destruct a as [|a]; cbn in Ha.
  - injection Ha as <-. reflexivity.
  - destruct a; discriminate.
Defined.

End GenePoolMore.

(** ** More on the evolution engine *)

Module EvolveMore.
Import GenePool Evolve EvolveFacts.

Section more.
Context {A : Type} `{EqDecision A} `{!Dtype A}.
Context {K : Type} `{Countable K}.
Variable evolvable_class : ctor_args A -> Evolvable A.
Variable can_survive : genes_t A -> bool.
Variable fitness_level : genes_t A -> Q.
Variable unique : genes_t A -> K.
Variable allele_add : A -> A -> A.

Implicit Types (s : state A) (d : gmap gene A) (pool : list (gene * list A)).
Implicit Types (v u : Evolvable A) (l b p : list (Evolvable A)).

Local Abbreviation key v := (unique (genes v)).
Local Abbreviation fit v := (fitness_level (genes v)).

(** *** Sorting *)

Lemma insert_desc_filter (P : Evolvable A -> Prop) `{!forall v, Decision (P v)} v l :
  (forall y, P v -> (fit v < fit y)%Q -> ~ P y) ->
  filter P (insert_desc fitness_level v l) = filter P (v :: l).
Proof.
  intros Hclass. induction l as [|y l IH]; cbn [insert_desc]; [done|].
  destruct (Qle_bool (fit y) (fit v)) eqn:Hle; [done|].
  assert (fit v < fit y)%Q as Hlt.
  { apply Qnot_le_lt. intros Hc. apply Qle_bool_iff in Hc. congruence. }
  rewrite (filter_cons P y), IH, !(filter_cons P v), (filter_cons P y).
  repeat case_decide; try done. by destruct (Hclass y).
Qed.

Lemma sorted_desc_filter (q : Q) l :
  filter (fun v => Qeq_bool (fit v) q) (sorted_desc fitness_level l)
  = filter (fun v => Qeq_bool (fit v) q) l.
Proof.
  induction l as [|x l IH]; cbn [sorted_desc foldr]; [done|].
  fold (sorted_desc fitness_level l).
  rewrite insert_desc_filter.
  - by rewrite !(filter_cons _ x), IH.
  - intros y Hv Hlt Hy. apply Is_true_true, Qeq_bool_iff in Hv, Hy.
    rewrite Hv, Hy in Hlt. lra.
Qed.

(** X9.  [best_parents(n)] with [n >= 0] returns [min(n, len(population))]
    candidates of the population, in never increasing fitness, every one of
    them at least as fit as every candidate left out; among candidates of
    the same fitness it returns the first ones of the population, in their
    order.  The engine is unchanged. *)
Theorem best_parents_spec s n :
  (0 <= n)%Z ->
  exists chosen rest,
    best_parents fitness_level n s = (s, Ok chosen) /\
    length chosen = Z.to_nat n `min` length (population (self s)) /\
    chosen ++ rest ≡ₚ population (self s) /\
    descending fitness_level chosen /\
    (forall v u, v ∈ chosen -> u ∈ rest -> (fit u <= fit v)%Q) /\
    (forall q, filter (fun v => Qeq_bool (fit v) q) chosen
               `prefix_of` filter (fun v => Qeq_bool (fit v) q) (population (self s))).
Proof.
  intros Hn.
  set (sorted := sorted_desc fitness_level (population (self s))).
  exists (take (Z.to_nat n) sorted), (drop (Z.to_nat n) sorted).
  pose proof (sorted_desc_descending fitness_level (population (self s))) as Hdesc.
  fold sorted in Hdesc. unfold descending in Hdesc.
  rewrite <- (take_drop (Z.to_nat n) sorted) in Hdesc.
  split; [|split; [|split; [|split; [|split]]]].
  - unfold best_parents. rewrite bind_gets. unfold ret, slice_to.
    by rewrite (proj2 (Z.leb_le 0 n) Hn).
  - rewrite length_take. subst sorted.
    by rewrite (Permutation_length (sorted_desc_perm fitness_level _)).
  - rewrite take_drop. apply sorted_desc_perm.
  - by apply StronglySorted_app_1_l in Hdesc.
  - intros v u Hv Hu.
    exact (StronglySorted_app_1_elem_of _ _ _ _ _ Hdesc Hv Hu).
  - intros q. rewrite <- (sorted_desc_filter q (population (self s))).
    fold sorted. rewrite <- (take_drop (Z.to_nat n) sorted) at 2.
    rewrite filter_app. by apply prefix_app_r.
Qed.

(** *** [set_best] *)





Lemma keep_first_fresh l : forall (seen : gset K) acc,
  NoDup ((fun v => key v) <$> l) ->
  (forall v, v ∈ l -> key v ∉ seen) ->
  foldl (keep_first unique) (seen, acc) l
    = (list_to_set ((fun v => key v) <$> l) ∪ seen, acc ++ l).
Proof.
  induction l as [|x l IH]; intros seen acc Hnd Hfresh; cbn [foldl].
  - cbn. rewrite app_nil_r. f_equal. by rewrite (left_id_L ∅ (∪)).
  - cbn in Hnd. apply NoDup_cons in Hnd as [Hx Hnd].
    unfold keep_first at 2. cbn [fst snd].
    rewrite decide_False by (apply Hfresh; by left).
    rewrite IH; [| done |].
    + cbn. rewrite <- app_assoc. f_equal.
      rewrite (assoc_L (∪)). f_equal. apply (comm_L (∪)).
    + intros v Hv. assert (key v <> key x).
      { intros Heq. apply Hx. rewrite <- Heq. apply list_elem_of_fmap. by exists v. }
      specialize (Hfresh v ltac:(by right)). apply not_elem_of_union. split; [|done].
      by apply not_elem_of_singleton.
Qed.

Lemma keep_first_seen l : forall (seen : gset K) acc,
  (forall v, v ∈ l -> key v ∈ seen) ->
  foldl (keep_first unique) (seen, acc) l = (seen, acc).
Proof.
  induction l as [|x l IH]; intros seen acc Hseen; cbn [foldl]; [done|].
  unfold keep_first at 2. cbn [fst snd].
  rewrite decide_True by (apply Hseen; by left).
  apply IH. intros v Hv. apply Hseen. by right.
Qed.

Lemma insert_desc_head v l :
  Forall (fun y => (fit y <= fit v)%Q) l -> insert_desc fitness_level v l = v :: l.
Proof.
  intros Hl. destruct l as [|y l]; [done|]. cbn.
  apply Forall_cons in Hl as [Hy _]. apply Qle_bool_iff in Hy. by rewrite Hy.
Qed.

Lemma sorted_desc_id l : descending fitness_level l -> sorted_desc fitness_level l = l.
Proof.
  unfold descending. induction l as [|x l IH]; intros Hl; [done|].
  apply StronglySorted_inv in Hl as [Hl Hx]. cbn [sorted_desc foldr].
  fold (sorted_desc fitness_level l). rewrite IH by done.
  by apply insert_desc_head.
Qed.

(** X11.  [set_best] never replaces an archived candidate by one with the
    same key: when the archive is within its bound, in never increasing
    fitness and without duplicate keys, and every candidate of the population
    has the key of an archived one, [set_best] leaves the engine as it was. *)
Theorem set_best_ignores_archived_keys s n_best :
  unique_keys unique (best (self s)) ->
  descending fitness_level (best (self s)) ->
  (Z.of_nat (length (best (self s))) <= n_best)%Z ->
  (forall v, v ∈ population (self s) ->
     exists u, u ∈ best (self s) /\ key u = key v) ->
  set_best fitness_level unique n_best s = (s, Ok tt).
Proof.
  intros Hb Hdesc Hlen Hp.
  unfold set_best. rewrite !bind_gets. unfold set_best_attr, modify.
  assert (new_best fitness_level unique (best (self s)) (population (self s)) n_best
          = best (self s)) as ->.
  { unfold new_best. rewrite foldl_app.
    rewrite keep_first_fresh; [|done|set_solver].
    rewrite keep_first_seen.
    - cbn [snd app]. rewrite sorted_desc_id by done. unfold slice_to.
      rewrite (proj2 (Z.leb_le 0 n_best)) by lia. apply take_ge. lia.
    - intros v Hv. destruct (Hp v Hv) as (u & Hu & <-).
      apply elem_of_union. left. apply elem_of_list_to_set, list_elem_of_fmap.
      by exists u. }
  by destruct s as [[? ? ?] ? ?].
Qed.

(** *** [run] *)

Lemma range_pos n :
  (1 <= n)%Z -> range n = 0%Z :: (Z.of_nat <$> seq 1 (Z.to_nat n - 1)).
Proof.
  intros Hn. unfold range. destruct (Z.to_nat n) as [|k] eqn:Hk; [lia|].
  cbn. by rewrite Nat.sub_0_r.
Qed.

(** The heap of a state is list-backed. *)
Local Abbreviation heap_ok := (fun s : state A => list_backed (world s)).

(** X12.  [run] with at least one generation and at least one child per
    generation never returns: in a heap where positions are Python lists,
    the first [cross_over] of the first generation does not return.  This
    holds with or without seeding, and with any callback that keeps the
    heap that way. *)
Theorem run_never_completes_a_generation fuel n n_best n_children cb_every cb s s' :
  (1 <= n)%Z -> (1 <= n_children)%Z ->
  list_backed (world s) ->
  (forall f i, cb = Some f -> preserves heap_ok (f i)) ->
  run evolvable_class can_survive fitness_level unique allele_add
      fuel n n_best n_children cb_every cb s <> (s', Ok tt).
Proof.
  intros Hn Hc Hw Hcb E. unfold run in E.
  destruct (_ && _); [discriminate|].
  rewrite bind_gets in E. apply bind_Ok in E as (s1 & [] & Eseed & E).
  assert (list_backed (world s1)) as Hw1.
  { destruct (population (self s)) as [|v p].
    - apply bind_Ok in Eseed as (s2 & p & Ep & E2).
      pose proof (preserves_comprehension (kept (self s) (world s)) (range n_children)
        (fun _ => generate_random_parent evolvable_class can_survive fuel)
        (fun _ => generate_random_parent_keeps _ _ _ _ fuel) s (conj eq_refl eq_refl))
        as Hkept.
      rewrite Ep in Hkept. destruct Hkept as [_ Hworld]. cbn [fst] in Hworld.
      unfold set_population in E2. rewrite bind_modify in E2.
      unfold set_best in E2. rewrite !bind_gets in E2.
      unfold set_best_attr, modify in E2. injection E2 as <-.
      cbn [world]. by rewrite Hworld.
    - by injection Eseed as <-. }
  rewrite (range_pos n Hn) in E. cbn [for_each] in E.
  apply bind_Ok in E as (s2 & [] & Ebody & _).
  apply bind_Ok in Ebody as (s3 & [] & Ecb & Ebody).
  assert (list_backed (world s3)) as Hw3.
  { destruct cb as [f|]; [destruct cb_every as [e|]|].
    - destruct (e =? 0)%Z; [discriminate|].
      destruct (_ =? 0)%Z.
      + exact (preserves_Ok _ _ _ _ _ (Hcb f 0%Z eq_refl) Hw1 Ecb).
      + by injection Ecb as <-.
    - discriminate.
    - by injection Ecb as <-. }
  unfold best_parents in Ebody. rewrite bind_bind, bind_gets, bind_ret in Ebody.
  rewrite (range_pos n_children Hc) in Ebody. cbn [comprehension] in Ebody.
  rewrite !bind_bind in Ebody.
  apply bind_Ok in Ebody as (s4 & child & Echild & _).
  by eapply cross_over_never_returns.
Qed.

(** X13.  [run] with [cb_every] non-zero and no callback raises [ValueError]
    and changes nothing; with [cb_every = 0] and no callback the check
    passes, and the run is the run without the two arguments. *)
Theorem run_rejects_cb_every_without_callback fuel n n_best n_children e s :
  e <> 0%Z ->
  run evolvable_class can_survive fitness_level unique allele_add
      fuel n n_best n_children (Some e) None s = (s, Raise ValueError) /\
  run evolvable_class can_survive fitness_level unique allele_add
      fuel n n_best n_children (Some 0%Z) None s
  = run evolvable_class can_survive fitness_level unique allele_add
      fuel n n_best n_children None None s.
Proof.
  intros He. split; [|reflexivity].
  unfold run. cbn. by rewrite (proj2 (Z.eqb_neq e 0) He).
Qed.

(** X14.  On a non-empty population, [run] with a callback, a non-zero
    [cb_every] and at least one generation first calls [cb(self, 0)]: when
    the callback does not return, [run] ends as the callback did, in the
    state the callback left. *)
Theorem run_calls_back_at_generation_0 fuel n n_best n_children e f s s1 o :
  population (self s) <> [] -> (1 <= n)%Z -> e <> 0%Z ->
  f 0%Z s = (s1, o) -> o <> Ok tt ->
  run evolvable_class can_survive fitness_level unique allele_add
      fuel n n_best n_children (Some e) (Some f) s = (s1, o).
Proof.
  intros Hp Hn He Ef Ho. unfold run. cbn [truthy].
  rewrite (proj2 (Z.eqb_neq e 0) He).
  rewrite bool_decide_true by eauto. cbn [negb andb orb].
  rewrite bind_gets. destruct (population (self s)) as [|v p]; [done|].
  rewrite bind_ret, (range_pos n Hn). cbn [for_each].
  rewrite !bind_bind. unfold bind at 1. rewrite Z.mod_0_l by done. cbn [Z.eqb].
  rewrite Ef. destruct o as [[]| |]; done.
Qed.

(** *** Draws *)

Lemma draw_spent s s' r :
  draw s = (s', Ok r) ->
  self s' = self s /\ world s' = world s /\ tape s = r :: tape s'.
Proof.
  unfold draw, next_draw. destruct (tape s) as [|r0 t] eqn:Ht; [discriminate|].
  by intros [= <- <-].
Qed.

Lemma random_choice_spent {X} (l : list X) s s' x :
  random_choice l s = (s', Ok x) ->
  x ∈ l /\ self s' = self s /\ world s' = world s /\
  length (tape s) = Datatypes.S (length (tape s')).
Proof.
  unfold random_choice. intros E. apply bind_Ok in E as (s1 & r & E1 & E2).
  apply draw_spent in E1 as (Hs & Hw & Ht).
  destruct (l !! _) as [y|] eqn:Ey; [|discriminate].
  injection E2 as <- <-. rewrite Ht. repeat split; try done.
  by eapply list_elem_of_lookup_2.
Qed.

Lemma random_randint_spent (lo hi : Z) s s' z :
  random_randint lo hi s = (s', Ok z) ->
  (lo <= z <= hi)%Z /\ self s' = self s /\ world s' = world s /\
  length (tape s) = Datatypes.S (length (tape s')).
Proof.
  unfold random_randint. destruct (Z.ltb_spec hi lo); [discriminate|].
  intros E. apply bind_Ok in E as (s1 & r & E1 & E2).
  apply draw_spent in E1 as (Hs & Hw & Ht). injection E2 as <- <-.
  rewrite Ht. repeat split; try done;
    pose proof (Z.mod_pos_bound (Z.of_nat r) (hi - lo + 1)); lia.
Qed.

Lemma dict_getitem_Ok pool g alleles :
  dict_getitem pool g = Ok alleles -> (g, alleles) ∈ pool.
Proof.
  induction pool as [|[k v] pool IH]; cbn; [discriminate|].
  case_decide as Hk.
  - intros [= <-]. subst. by left.
  - intros E. right. by apply IH.
Qed.

(** *** [mutate] *)

(** X15.  A call [mutate(c, n1, n2)] that returns has made [swap] swaps,
    [n1 <= swap <= n2], one written gene each (the same gene may be written
    again): the genes that were not written keep their entries, a written
    gene holds an allele of its list in the gene pool, no allele stands for
    two genes if none did, the caching flag, the engine and the heap are
    unchanged, and one draw plus at least two per swap are spent. *)
Theorem mutate_returns fuel c n1 n2 s s' c' d :
  genes c = Dict d -> no_duplicate_alleles d ->
  mutate fuel c n1 n2 s = (s', Ok c') ->
  exists d' (written : list gene) (swap : Z),
    genes c' = Dict d' /\ cache_attrs c' = cache_attrs c /\
    no_duplicate_alleles d' /\
    (n1 <= swap <= n2)%Z /\ length written = Z.to_nat swap /\
    (forall g, g ∉ written -> d' !! g = d !! g) /\
    (forall g, g ∈ written ->
       exists a alleles,
         d' !! g = Some a /\ (g, alleles) ∈ gene_pool (self s) /\ a ∈ alleles) /\
    self s' = self s /\ world s' = world s /\
    length (tape s') + 1 + 2 * Z.to_nat swap <= length (tape s).
Proof.
  intros Hd Hnd E. unfold mutate in E.
  apply bind_Ok in E as (s1 & swap & Hswap & E).
  apply random_randint_spent in Hswap as (Hswap & Hself1 & Hworld1 & Htape1).
  set (J := fun (done : list Z) (c0 : Evolvable A) (t : state A) =>
    self t = self s /\ world t = world s /\
    length (tape t) + 2 * length done <= length (tape s1) /\
    cache_attrs c0 = cache_attrs c /\
    exists d' (written : list gene),
      genes c0 = Dict d' /\ no_duplicate_alleles d' /\
      length written = length done /\
      (forall g, g ∉ written -> d' !! g = d !! g) /\
      (forall g, g ∈ written ->
         exists a alleles,
           d' !! g = Some a /\ (g, alleles) ∈ gene_pool (self s) /\ a ∈ alleles)).
  fold_inv E J.
  - clear E. intros done c0 y Hy u1 u2 c1
      (Hs & Hw & Ht & Hc & d1 & written & Hd1 & Hnd1 & Hlen & Hsame & Hfrom) E.
    set (Q := fun (c' : Evolvable A) (t : state A) =>
      length (tape t) + 2 <= length (tape u1) /\
      (length (tape t) + 2 <= length (tape u1) -> J (done ++ [y]) c' t)).
    while_inv E
      (fun (_ : unit) (t : state A) =>
         self t = self s /\ world t = world s /\ length (tape t) <= length (tape u1)) Q.
    + clear E. intros [] t1 t2 r (Hs1 & Hw1 & Ht1) E.
      rewrite bind_gets in E.
      apply bind_Ok in E as (t3 & random_gene & Eg & E).
      apply random_choice_spent in Eg as (Hg & Hs3 & Hw3 & Ht3).
      apply bind_Ok in E as (t4 & alleles & Ea & E). injection Ea as <- Ea.
      apply dict_getitem_Ok in Ea.
      apply bind_Ok in E as (t5 & random_allele & Er & E).
      apply random_choice_spent in Er as (Hr & Hs5 & Hw5 & Ht5).
      rewrite Hd1 in E. cbn [genes_values genes_setitem] in E.
      rewrite bind_Ok_eq in E. case_decide as Hv.
      * injection E as <- <-. repeat split; try congruence. lia.
      * rewrite bind_Ok_eq in E. injection E as <- <-.
        split; [lia|]. intros Hlt.
        split; [congruence|]. split; [congruence|].
        split; [rewrite length_app; cbn; lia|]. split; [done|].
        exists (<[random_gene := random_allele]> d1), (random_gene :: written).
        split; [done|]. split; [|split; [|split]].
        -- apply no_duplicate_insert; [done|].
           intros g Hg'. apply Hv, elem_of_values. eauto.
        -- rewrite length_app. cbn. lia.
        -- intros g Hg'. apply not_elem_of_cons in Hg' as [Hne Hg'].
           rewrite lookup_insert_ne by done. by apply Hsame.
        -- intros g Hg'. destruct (decide (g = random_gene)) as [->|Hne].
           ++ exists random_allele, alleles. rewrite lookup_insert_eq.
              rewrite Hs1 in Ea. done.
           ++ rewrite lookup_insert_ne by done. apply Hfrom.
              apply elem_of_cons in Hg' as [?|?]; done.
    + repeat split; try done.
    + destruct Hpost as [Hlt HJ]. by apply HJ.
  - split; [done|]. split; [done|]. split; [cbn; lia|]. split; [done|].
    exists d, []. repeat split; try done.
    intros g Hg. by apply elem_of_nil in Hg.
  - destruct Hpost as (Hs & Hw & Ht & Hc & d' & written & Hd' & Hnd' & Hlen & Hsame & Hfrom).
    cbn [app] in *.
    assert (length (range swap) = Z.to_nat swap) as Hrange.
    { unfold range. by rewrite length_fmap, length_seq. }
    exists d', written, swap. repeat split; try done; try lia.
Qed.

(** X16.  When the candidate already holds every allele the gene pool
    offers (an empty pool and empty allele lists included), [mutate] with
    [n1 >= 1] never returns. *)
Theorem mutate_without_a_new_allele fuel c n1 n2 s s' c' d :
  genes c = Dict d -> (1 <= n1)%Z ->
  (forall g alleles a, (g, alleles) ∈ gene_pool (self s) -> a ∈ alleles ->
     exists g', d !! g' = Some a) ->
  mutate fuel c n1 n2 s <> (s', Ok c').
Proof.
  intros Hd Hn Hall E. unfold mutate in E.
  apply bind_Ok in E as (s1 & swap & Hswap & E).
  apply random_randint_spent in Hswap as (Hswap & Hself1 & _).
  rewrite (range_pos swap) in E by lia. cbn [fold_each] in E.
  apply bind_Ok in E as (s2 & c1 & E & _).
  while_inv E (fun (_ : unit) (t : state A) => self t = self s)
    (fun (_ : Evolvable A) (_ : state A) => False); [|done|done].
  clear E. intros [] t1 t2 r Hs1 E.
  rewrite bind_gets in E.
  apply bind_Ok in E as (t3 & random_gene & Eg & E).
  apply random_choice_spent in Eg as (Hg & Hs3 & _).
  apply bind_Ok in E as (t4 & alleles & Ea & E). injection Ea as <- Ea.
  apply dict_getitem_Ok in Ea. rewrite Hs1 in Ea.
  apply bind_Ok in E as (t5 & random_allele & Er & E).
  apply random_choice_spent in Er as (Hr & Hs5 & _).
  rewrite Hd in E. cbn [genes_values] in E. rewrite bind_Ok_eq in E.
  rewrite decide_True in E by (apply elem_of_values; by eapply Hall).
  injection E as <- <-. congruence.
Qed.

(** *** [generate_random_parent] *)

(** Everything a returning call establishes. *)
Lemma random_parent_returns fuel s s' parent d0 :
  genes (evolvable_class (FromKeys (keys (gene_pool (self s))))) = Dict d0 ->
  (forall g, is_Some (d0 !! g) -> g ∈ keys (gene_pool (self s))) ->
  generate_random_parent evolvable_class can_survive fuel s = (s', Ok parent) ->
  self s' = self s /\ world s' = world s /\
  length (tape s') + length (gene_pool (self s)) <= length (tape s) /\
  cache_attrs parent = true /\
  exists d,
    genes parent = Dict d /\
    (forall g, g ∈ keys (gene_pool (self s)) <-> is_Some (d !! g)) /\
    (forall g a, d !! g = Some a ->
       exists alleles, (g, alleles) ∈ gene_pool (self s) /\ a ∈ alleles) /\
    no_duplicate_alleles d /\
    can_survive (genes parent) = true.
Proof.
  intros Hd0 Hdom0 E. unfold generate_random_parent in E.
  rewrite bind_gets in E. cbv beta zeta in E.
  set (pool := gene_pool (self s)) in *.
  set (I := fun (p : Evolvable A) (s1 : state A) =>
    self s1 = self s /\ world s1 = world s /\
    length (tape s1) <= length (tape s) /\
    exists d, genes p = Dict d /\ forall g, is_Some (d !! g) -> g ∈ keys pool).
  set (Q := fun (p : Evolvable A) (s1 : state A) =>
    self s1 = self s /\ world s1 = world s /\
    length (tape s1) + length pool <= length (tape s) /\
    cache_attrs p = true /\
    exists d, genes p = Dict d /\
      (forall g, g ∈ keys pool <-> is_Some (d !! g)) /\
      (forall g a, d !! g = Some a -> exists alleles, (g, alleles) ∈ pool /\ a ∈ alleles) /\
      no_duplicate_alleles d /\ can_survive (genes p) = true).
  while_inv E I Q; [|repeat split; eauto|exact Hpost].
  clear E parent s' Hd0 Hdom0 d0.
  intros p s1 s2 r (Hself & Hworld & Htape & d1 & Hd1 & Hdom1) E.
  rewrite bind_gets in E. rewrite Hself in E. fold pool in E.
  apply bind_Ok in E as (s3 & p1 & Efold & E).
  set (J := fun (done : list (gene * list A)) (p : Evolvable A) (t : state A) =>
    self t = self s /\ world t = world s /\
    length (tape t) + length done <= length (tape s1) /\
    exists d, genes p = Dict d /\
      (forall g, is_Some (d !! g) -> g ∈ keys pool) /\
      (forall g, g ∈ done.*1 -> is_Some (d !! g)) /\
      (forall g a, g ∈ done.*1 -> d !! g = Some a ->
         exists alleles, (g, alleles) ∈ pool /\ a ∈ alleles) /\
      (forall g1 g2 a, g1 ∈ done.*1 -> d !! g1 = Some a -> d !! g2 = Some a ->
         g1 = g2)).
  fold_inv Efold J.
  - clear. intros done p [gene allele] Hin u1 u2 p'
      (Hself & Hworld & Htape & d & Hd & Hdom & Hall & Hfrom & Hinj) E.
    set (Q' := fun (p' : Evolvable A) (t : state A) =>
      self t = self s /\ world t = world s /\
      length (tape t) + 1 <= length (tape u1) /\
      exists a, a ∈ allele /\
        (forall g, d !! g <> Some a) /\
        p' = Candidate (Dict (<[gene := a]> d)) (cache_attrs p)).
    while_inv E (fun (_ : unit) (t : state A) =>
      self t = self s /\ world t = world s /\ length (tape t) <= length (tape u1)) Q';
      [|done|].
    { clear u2 p' E. intros [] t1 t2 r (Hs1 & Hw1 & Ht1) E.
      apply bind_Ok in E as (t3 & a & Ec & E).
      apply random_choice_spent in Ec as (Ha & Hs3 & Hw3 & Ht3).
      rewrite Hd in E. cbn [genes_values genes_setitem] in E.
      rewrite bind_Ok_eq in E. case_decide as Hv.
      - injection E as <- <-. repeat split; try congruence. lia.
      - rewrite bind_Ok_eq in E. injection E as <- <-.
        split; [congruence|]. split; [congruence|]. split; [lia|].
        exists a. split; [done|]. split; [|done].
        intros g Hg. apply Hv, elem_of_values. eauto. }
    destruct Hpost as (Hs2 & Hw2 & Ht2 & a & Ha & Hfresh & ->).
    split; [done|]. split; [done|]. split; [rewrite length_app; cbn; lia|].
    exists (<[gene := a]> d). split; [done|].
    assert (gene ∈ keys pool) as Hgene.
    { unfold keys. apply list_elem_of_fmap. by exists (gene, allele). }
    repeat split.
    + intros g. rewrite lookup_insert_is_Some. intros [<-|[_ Hg]]; auto.
    + intros g. rewrite fmap_app, elem_of_app, lookup_insert_is_Some.
      cbn. rewrite list_elem_of_singleton.
      destruct (decide (gene = g)); [by left|]. intros [Hg|Hg]; [|done].
      right. split; auto.
    + intros g v. rewrite fmap_app, elem_of_app, lookup_insert_Some.
      cbn. rewrite list_elem_of_singleton.
      intros Hg [[<- <-]|[Hne Hv]]; [by exists allele|].
      destruct Hg as [Hg|Hg]; [by eapply Hfrom|done].
    + intros g1 g2 v. rewrite fmap_app, elem_of_app, !lookup_insert_Some.
      cbn. rewrite list_elem_of_singleton.
      intros Hg [[<- <-]|[Hne1 E1]] [[<- E2]|[Hne2 E2]]; try done.
      * subst. by destruct (Hfresh g2).
      * subst. by destruct (Hfresh g1).
      * destruct Hg as [Hg|Hg]; [by eapply Hinj|done].
  - split; [done|]. split; [done|]. split; [cbn; lia|].
    exists d1. split; [done|]. split; [done|].
    cbn. repeat split; intros *; by rewrite ?elem_of_nil.
  - destruct Hpost as (Hself3 & Hworld3 & Htape3 & d & Hd & Hdom & Hall & Hfrom & Hinj).
    cbn [app] in *.
    destruct (can_survive (genes p1)) eqn:Hsurv; injection E as <- <-.
    + split; [done|]. split; [done|]. split; [lia|]. split; [done|].
      exists d. split; [done|]. split; [|split; [|split]].
      * intros g. split; [apply Hall|apply Hdom].
      * intros g a Hg. eapply Hfrom; [|done]. apply Hdom. by eexists.
      * intros g1 g2 a Hg1 Hg2. eapply Hinj; [|done..]. apply Hdom. by eexists.
      * cbn. done.
    + split; [done|]. split; [done|]. split; [lia|]. exists d. by split.
Qed.

(** X17.  A call of [generate_random_parent] that returns has left the
    engine and the heap as they were, has spent at least one draw for every
    gene of the pool, and returns the candidate with [cache_attrs] set. *)
Theorem generate_random_parent_only_draws fuel s s' parent d0 :
  genes (evolvable_class (FromKeys (keys (gene_pool (self s))))) = Dict d0 ->
  (forall g, is_Some (d0 !! g) -> g ∈ keys (gene_pool (self s))) ->
  generate_random_parent evolvable_class can_survive fuel s = (s', Ok parent) ->
  self s' = self s /\ world s' = world s /\
  length (tape s') + length (gene_pool (self s)) <= length (tape s) /\
  cache_attrs parent = true.
Proof.
  intros Hd0 Hdom0 E.
  destruct (random_parent_returns fuel s s' parent d0 Hd0 Hdom0 E)
    as (Hs & Hw & Ht & Hc & _).
  done.
Qed.

(** X18.  When the gene pool has more genes than it has different alleles,
    [generate_random_parent] never returns: no candidate can hold a
    different allele for every gene. *)
Theorem generate_random_parent_needs_enough_alleles fuel s s' parent d0 (all : list A) :
  genes (evolvable_class (FromKeys (keys (gene_pool (self s))))) = Dict d0 ->
  (forall g, is_Some (d0 !! g) -> g ∈ keys (gene_pool (self s))) ->
  NoDup (keys (gene_pool (self s))) ->
  (forall g alleles a, (g, alleles) ∈ gene_pool (self s) -> a ∈ alleles -> a ∈ all) ->
  length all < length (gene_pool (self s)) ->
  generate_random_parent evolvable_class can_survive fuel s <> (s', Ok parent).
Proof.
  intros Hd0 Hdom0 Hkeys Hall Hfew E.
  destruct (random_parent_returns fuel s s' parent d0 Hd0 Hdom0 E)
    as (_ & _ & _ & _ & d & _ & Hdom & Hfrom & Hnd & _).
  set (ks := keys (gene_pool (self s))) in *.
  assert (NoDup ((fun g => d !! g) <$> ks)) as Hvals.
  { apply NoDup_fmap_2_strong; [|done].
    intros g1 g2 Hg1 Hg2 Heq. cbv beta in Heq.
    apply Hdom in Hg1 as [a Ha]. eapply Hnd; [done|]. by rewrite <- Heq. }
  assert ((fun g => d !! g) <$> ks ⊆+ Some <$> all) as Hsub.
  { apply NoDup_submseteq; [done|]. intros o Ho.
    apply list_elem_of_fmap in Ho as (g & -> & Hg).
    apply Hdom in Hg as [a Ha]. rewrite Ha.
    destruct (Hfrom g a Ha) as (alleles & Hin & Ha').
    apply list_elem_of_fmap. exists a. split; [done|]. by eapply Hall. }
  apply submseteq_length in Hsub. rewrite !length_fmap in Hsub.
  subst ks. unfold keys in Hsub. rewrite length_fmap in Hsub. lia.
Qed.

Lemma fold_each_never {S Acc Y} (l : list Y) (body : Acc -> Y -> M S Acc) y :
  y ∈ l ->
  (forall a st st' a', body a y st <> (st', Ok a')) ->
  forall a st st' x, fold_each l body a st <> (st', Ok x).
Proof.
  intros Hy Hbody. induction l as [|z l IH]; intros a st st' x E.
  - by apply elem_of_nil in Hy.
  - cbn [fold_each] in E. apply bind_Ok in E as (st1 & a1 & E1 & E2).
    apply elem_of_cons in Hy as [->|Hy].
    + by eapply Hbody.
    + by eapply IH.
Qed.

Lemma random_choice_nil {X} s s' (x : X) : random_choice [] s <> (s', Ok x).
Proof.
  unfold random_choice. intros E. apply bind_Ok in E as (s1 & r & _ & E).
  rewrite lookup_nil in E. discriminate.
Qed.

(** X19.  When a gene of the pool has an empty allele list,
    [generate_random_parent] never returns. *)
Theorem generate_random_parent_with_empty_gene fuel s s' parent g :
  (g, []) ∈ gene_pool (self s) ->
  generate_random_parent evolvable_class can_survive fuel s <> (s', Ok parent).
Proof.
  intros Hg E. unfold generate_random_parent in E.
  rewrite bind_gets in E. cbv beta zeta in E.
  while_inv E (fun (_ : Evolvable A) (s1 : state A) => self s1 = self s)
    (fun (_ : Evolvable A) (_ : state A) => False); [|done|done].
  clear E. intros p s1 s2 r Hself E. exfalso.
  rewrite bind_gets in E. rewrite Hself in E.
  apply bind_Ok in E as (s3 & p1 & Efold & _).
  revert Efold. apply (fold_each_never _ _ (g, [])); [done|].
  intros a st st' a' E.
  destruct fuel as [|fuel]; [discriminate|]. cbn [while_true] in E.
  apply bind_Ok in E as (st1 & r1 & E & _).
  apply bind_Ok in E as (st2 & x & E & _).
  by eapply random_choice_nil.
Qed.

End more.

Import Examples MoreExamples.

Lemma best_parents_spec_witness :
  exists chosen rest,
    best_parents allele_fitness 2
      (one_gene_state [1; 2; 3]%Z [with_g 1; with_g 3; with_g 2] [] [])
      = (one_gene_state [1; 2; 3]%Z [with_g 1; with_g 3; with_g 2] [] [], Ok chosen) /\
    length chosen = 2 `min` 3 /\
    chosen ++ rest ≡ₚ [with_g 1; with_g 3; with_g 2] /\
    descending allele_fitness chosen /\
    (forall v u, v ∈ chosen -> u ∈ rest ->
       (allele_fitness (genes u) <= allele_fitness (genes v))%Q) /\
    (forall q, filter (fun v => Qeq_bool (allele_fitness (genes v)) q) chosen
               `prefix_of` filter (fun v => Qeq_bool (allele_fitness (genes v)) q)
                             [with_g 1; with_g 3; with_g 2]).
Proof.
  apply (best_parents_spec allele_fitness
           (one_gene_state [1; 2; 3]%Z [with_g 1; with_g 3; with_g 2] [] []) 2).
  lia.
Defined.


Lemma set_best_ignores_archived_keys_witness :
  set_best allele_fitness allele_of_g 2
    (one_gene_state [1; 2]%Z [with_g 1; with_g 1] [with_g 2; with_g 1] [])
  = (one_gene_state [1; 2]%Z [with_g 1; with_g 1] [with_g 2; with_g 1] [], Ok tt).
Proof.
  apply (set_best_ignores_archived_keys allele_fitness allele_of_g
           (one_gene_state [1; 2]%Z [with_g 1; with_g 1] [with_g 2; with_g 1] []) 2).
  - apply NoDup_cons. split; [|apply NoDup_singleton].
    intros Hin. apply list_elem_of_singleton in Hin. discriminate.
  - repeat constructor. vm_compute. discriminate.
  - cbn. lia.
  - intros v Hv. exists (with_g 1). split; [apply list_elem_of_further, list_elem_of_here|].
    apply elem_of_cons in Hv as [->|Hv]; [reflexivity|].
    apply list_elem_of_singleton in Hv as ->. reflexivity.
Defined.

Lemma run_never_completes_a_generation_witness :
  run empty_candidate always_survives allele_fitness allele_of_g Z.add
      3 1 5 2 None None (one_gene_state [1; 2; 3]%Z [] [] [0; 1; 2; 3])
  <> (one_gene_state [1; 2; 3]%Z [] [] [], Ok tt).
Proof.
  apply (run_never_completes_a_generation empty_candidate always_survives
           allele_fitness allele_of_g Z.add 3 1 5 2 None None).
  - lia.
  - lia.
  - intros a o Ha. destruct a; discriminate.
  - intros f i Hf. discriminate.
Defined.

Lemma run_rejects_cb_every_without_callback_witness :
  run empty_candidate always_survives allele_fitness allele_of_g Z.add
      3 1 5 2 (Some 2%Z) None (one_gene_state [1; 2; 3]%Z [] [] [0; 1])
    = (one_gene_state [1; 2; 3]%Z [] [] [0; 1], Raise ValueError) /\
  run empty_candidate always_survives allele_fitness allele_of_g Z.add
      3 1 5 2 (Some 0%Z) None (one_gene_state [1; 2; 3]%Z [] [] [0; 1])
  = run empty_candidate always_survives allele_fitness allele_of_g Z.add
      3 1 5 2 None None (one_gene_state [1; 2; 3]%Z [] [] [0; 1]).
Proof.
  apply (run_rejects_cb_every_without_callback empty_candidate always_survives
           allele_fitness allele_of_g Z.add 3 1 5 2 2). lia.
Defined.

Lemma run_calls_back_at_generation_0_witness :
  run empty_candidate always_survives allele_fitness allele_of_g Z.add
      3 4 5 2 (Some 3%Z) (Some failing_callback)
      (one_gene_state [1; 2]%Z [with_g 1] [] [0; 1])
    = (one_gene_state [1; 2]%Z [with_g 1] [] [0; 1], Raise KeyError).
Proof.
  apply (run_calls_back_at_generation_0 empty_candidate always_survives
           allele_fitness allele_of_g Z.add 3 4 5 2 3 failing_callback).
  - discriminate.
  - lia.
  - lia.
  - reflexivity.
  - discriminate.
Defined.

Lemma no_duplicate_singleton (g : gene) (z : Z) : no_duplicate_alleles ({[g := z]} : gmap gene Z).
Proof.
  intros g1 g2 a H1 H2.
  apply lookup_singleton_Some in H1 as [<- _].
  apply lookup_singleton_Some in H2 as [<- _]. reflexivity.
Qed.

Lemma mutate_returns_witness :
  exists d' (written : list gene) (swap : Z),
    genes (with_g 2) = Dict d' /\ cache_attrs (with_g 2) = cache_attrs (with_g 1) /\
    no_duplicate_alleles d' /\
    (1 <= swap <= 2)%Z /\ length written = Z.to_nat swap /\
    (forall g, g ∉ written -> d' !! g = ({["g" := 1%Z]} : gmap gene Z) !! g) /\
    (forall g, g ∈ written ->
       exists a alleles,
         d' !! g = Some a /\ (g, alleles) ∈ one_gene [1; 2]%Z /\ a ∈ alleles) /\
    self (one_gene_state [1; 2]%Z [] [] [9]) = self (one_gene_state [1; 2]%Z [] [] [0; 0; 1; 9]) /\
    world (one_gene_state [1; 2]%Z [] [] [9]) = world (one_gene_state [1; 2]%Z [] [] [0; 0; 1; 9]) /\
    length (tape (one_gene_state [1; 2]%Z [] [] [9])) + 1 + 2 * Z.to_nat swap
      <= length (tape (one_gene_state [1; 2]%Z [] [] [0; 0; 1; 9])).
Proof.
  apply (mutate_returns 3 (with_g 1) 1 2 (one_gene_state [1; 2]%Z [] [] [0; 0; 1; 9])
           (one_gene_state [1; 2]%Z [] [] [9]) (with_g 2) {["g" := 1%Z]}).
  - reflexivity.
  - apply no_duplicate_singleton.
  - vm_compute. reflexivity.
Defined.

Lemma mutate_without_a_new_allele_witness :
  mutate 3 (with_g 1) 1 2 (one_gene_state [1]%Z [] [] [0; 0; 0; 0; 0; 0; 0])
  <> (one_gene_state [1]%Z [] [] [], Ok (with_g 1)).
Proof.
  apply (mutate_without_a_new_allele 3 (with_g 1) 1 2
           (one_gene_state [1]%Z [] [] [0; 0; 0; 0; 0; 0; 0])
           (one_gene_state [1]%Z [] [] []) (with_g 1) {["g" := 1%Z]}).
  - reflexivity.
  - lia.
  - intros g alleles a Hg Ha. apply list_elem_of_singleton in Hg.
    injection Hg as -> ->. apply list_elem_of_singleton in Ha as ->.
    exists "g". reflexivity.
Defined.

Lemma generate_random_parent_only_draws_witness :
  self (colors_state []) = self (colors_state [0; 1]) /\
  world (colors_state []) = world (colors_state [0; 1]) /\
  length (tape (colors_state [])) + length colors_and_sizes
    <= length (tape (colors_state [0; 1])) /\
  cache_attrs (Candidate (Dict {["color" := "red"; "size" := "large"]}) true) = true.
Proof.
  apply (generate_random_parent_only_draws empty_candidate always_survives 3
           (colors_state [0; 1]) (colors_state [])
           (Candidate (Dict {["color" := "red"; "size" := "large"]}) true) ∅).
  - reflexivity.
  - intros g [a Ha]. rewrite lookup_empty in Ha. discriminate.
  - vm_compute. reflexivity.
Defined.

Lemma generate_random_parent_needs_enough_alleles_witness :
  generate_random_parent empty_candidate always_survives 3 (two_genes_state [0; 0; 0; 0])
  <> (two_genes_state [], Ok (with_g 1)).
Proof.
  apply (generate_random_parent_needs_enough_alleles empty_candidate always_survives 3
           (two_genes_state [0; 0; 0; 0]) (two_genes_state []) (with_g 1) ∅ [1%Z]).
  - reflexivity.
  - intros g [a Ha]. rewrite lookup_empty in Ha. discriminate.
  - apply NoDup_cons. split; [|apply NoDup_singleton].
    intros Hin. apply list_elem_of_singleton in Hin. discriminate.
  - intros g alleles a Hg Ha.
    apply elem_of_cons in Hg as [Hg|Hg]; [|apply list_elem_of_singleton in Hg];
      injection Hg as -> ->; exact Ha.
  - cbn. lia.
Defined.

Lemma generate_random_parent_with_empty_gene_witness :
  generate_random_parent empty_candidate always_survives 3 (one_gene_state [] [] [] [0; 0])
  <> (one_gene_state [] [] [] [], Ok (with_g 1)).
Proof.
  apply (generate_random_parent_with_empty_gene empty_candidate always_survives 3
           (one_gene_state [] [] [] [0; 0]) (one_gene_state [] [] [] []) (with_g 1) "g").
  apply list_elem_of_here.
Defined.

End EvolveMore.
